(** * RT-TR: the incremental translation pipeline of [src/App.tsx]

    A shallow embedding of the stream decoder ([translateTextStream]), the
    request coordinator ([performTranslation]), the debounce effect and
    [speak], followed by the properties of the specification that concern
    them.

    Strings.  A JavaScript string is a sequence of UTF-16 code units.  The
    model uses Rocq's [string], whose characters are the code units
    0..255 (the Latin-1 range); on that range [trim], [toLowerCase],
    [split], [join] and [includes] below are the ECMAScript functions. *)

From Stdlib Require Import String Ascii List Bool Arith PeanoNat PArith Lia.
Import ListNotations.
Open Scope string_scope.
Open Scope list_scope.
Open Scope nat_scope.

Infix "^^" := String.append (at level 60, right associativity).

(** ** JavaScript string primitives used by the source *)

Module JS.

(** The line feed, written ['\n'] in the source. *)
Definition LF : ascii := "010"%char.

(** ECMAScript WhiteSpace and LineTerminator code points below 256:
    TAB, LF, VT, FF, CR, SP and NBSP. *)
Definition isWhiteSpace (c : ascii) : bool :=
  let n := nat_of_ascii c in
  ((9 <=? n) && (n <=? 13)) || (n =? 32) || (n =? 160).

Fixpoint trimStart (s : string) : string :=
  match s with
  | EmptyString => EmptyString
  | String c s' => if isWhiteSpace c then trimStart s' else s
  end.

Fixpoint trimEnd (s : string) : string :=
  match s with
  | EmptyString => EmptyString
  | String c s' =>
      match trimEnd s' with
      | EmptyString => if isWhiteSpace c then EmptyString else String c EmptyString
      | t => String c t
      end
  end.

(** [String.prototype.trim] *)
Definition trim (s : string) : string := trimEnd (trimStart s).

(** Lower-casing of one code unit below 256: A-Z, and the Latin-1 capitals
    U+00C0..U+00DE except the multiplication sign U+00D7. *)
Definition toLowerCaseChar (c : ascii) : ascii :=
  let n := nat_of_ascii c in
  if ((65 <=? n) && (n <=? 90))
     || ((192 <=? n) && (n <=? 222) && negb (n =? 215))
  then ascii_of_nat (n + 32) else c.

(** [String.prototype.toLowerCase] *)
Fixpoint toLowerCase (s : string) : string :=
  match s with
  | EmptyString => EmptyString
  | String c s' => String (toLowerCaseChar c) (toLowerCase s')
  end.

(** [s.includes(sub)] *)
Fixpoint includes (s sub : string) : bool :=
  String.prefix sub s
  || match s with
     | EmptyString => false
     | String _ s' => includes s' sub
     end.

(** [s.split(sep)] for a one-character separator; the result is never
    empty ([''.split('\n')] is [['']]). *)
Fixpoint split (sep : ascii) (s : string) : list string :=
  match s with
  | EmptyString => [EmptyString]
  | String c s' =>
      if Ascii.eqb c sep then EmptyString :: split sep s'
      else match split sep s' with
           | [] => [String c EmptyString]
           | l :: ls => String c l :: ls
           end
  end.

(** [a.join(sep)] *)
Fixpoint join (sep : string) (a : list string) : string :=
  match a with
  | [] => EmptyString
  | [x] => x
  | x :: xs => x ^^ sep ^^ join sep xs
  end.

(** [a.slice(1)] *)
Definition slice1 (a : list string) : list string := tl a.

(** [a[0]] of an array of strings; [split] never returns the empty array,
    so the default is not reached in the source. *)
Definition first (a : list string) : string := hd EmptyString a.

(** Truthiness of a string: only [''] is falsy. *)
Definition truthy (s : string) : bool :=
  match s with EmptyString => false | String _ _ => true end.

(** Truthiness of a value of type [string | undefined]. *)
Definition truthy_opt (o : option string) : bool :=
  match o with None => false | Some s => truthy s end.

End JS.

(** ** Types *)

(** The objects yielded by [translateTextStream] and stored by
    [setTranslation].  The object literals of the source are
    [{ detectedLanguage, translation }]: the property [isComplete] of the
    interface [TranslationResult] is [None] (absent) when the object does not
    carry it.  The record lives in its own name space because the component
    has a state variable that is also called [translation]. *)
Module TR.
Record t : Type := mk {
  detectedLanguage : string;
  translation : string;
  isComplete : option bool
}.
End TR.

Abbreviation TranslationResult := TR.t.

(** ** The remote translation service, as seen by the client *)

(** How the chunk stream of [generateContentStream] terminates. *)
Inductive StreamEnd : Type :=
| EndOfStream
| StreamError (e : string).

(** The iterable returned by [generateContentStream]: the [text] property of
    each chunk ([string | undefined]) in arrival order, then its end. *)
Record RemoteStream : Type := mkStream {
  chunks : list (option string);
  ending : StreamEnd
}.

(** The promise returned by [generateContentStream]. *)
Inductive RemoteCall : Type :=
| CallRejects (e : string)
| CallResolves (s : RemoteStream).

(** ** The stream decoder: [translateTextStream], lines 28-73 *)

(** The two locals of the generator. *)
Record DecoderState : Type := mkDecoder {
  detectedLang : string;
  fullText : string
}.

Definition decoder_init : DecoderState :=
  {| detectedLang := EmptyString; fullText := EmptyString |}.

(** One iteration of the [for await] loop body (lines 56-68): the new locals
    and the value yielded, if any. *)
Definition decode_chunk (st : DecoderState) (chunk : option string)
  : DecoderState * option TranslationResult :=
  match chunk with
  | None => (st, None)
  | Some chunkText =>
      if negb (JS.truthy chunkText) then (st, None)
      else if negb (JS.truthy (detectedLang st)) then
        let lines := JS.split JS.LF chunkText in
        let dl := if JS.includes (JS.toLowerCase (JS.trim (JS.first lines))) "zh"
                  then "zh" else "en" in
        let remaining := JS.join (String JS.LF EmptyString) (JS.slice1 lines) in
        let ft := fullText st ^^ remaining in
        ({| detectedLang := dl; fullText := ft |},
         Some {| TR.detectedLanguage := dl; TR.translation := ft;
                 TR.isComplete := None |})
      else
        let ft := fullText st ^^ chunkText in
        ({| detectedLang := detectedLang st; fullText := ft |},
         Some {| TR.detectedLanguage := detectedLang st; TR.translation := ft;
                 TR.isComplete := None |})
  end.

(** The whole loop over the chunks that arrive: the values yielded, in
    order, and the locals when the chunks are exhausted. *)
Fixpoint decode_chunks (st : DecoderState) (cs : list (option string))
  : list TranslationResult * DecoderState :=
  match cs with
  | [] => ([], st)
  | c :: cs' =>
      let '(st', y) := decode_chunk st c in
      let '(ys, st'') := decode_chunks st' cs' in
      (match y with Some r => r :: ys | None => ys end, st'')
  end.

(** How a block of code ends. *)
Inductive Outcome : Type :=
| Normal
| Throws (e : string).

(** The body of the [try] block (lines 32-69): the values yielded and how
    the block ends.  A rejected call or a stream error is an exception
    raised inside the block. *)
Definition try_body (remote : RemoteCall) : list TranslationResult * Outcome :=
  match remote with
  | CallRejects e => ([], Throws e)
  | CallResolves s =>
      (fst (decode_chunks decoder_init (chunks s)),
       match ending s with
       | EndOfStream => Normal
       | StreamError e => Throws e
       end)
  end.

(** A complete run of the generator. *)
Record GenRun : Type := mkGenRun {
  yields : list TranslationResult;
  outcome : Outcome;
  remote_requests : list string;
  console : list string
}.

(** [translateTextStream(text)] driven to its end against a service that
    answers with [remote]. *)
Definition translateTextStream (text : string) (remote : RemoteCall) : GenRun :=
  if negb (JS.truthy (JS.trim text)) then
    {| yields := []; outcome := Normal; remote_requests := []; console := [] |}
  else
    let '(ys, o) := try_body remote in
    match o with
    | Normal =>
        {| yields := ys; outcome := Normal; remote_requests := [text];
           console := [] |}
    | Throws e =>
        (* catch (error) { console.error("Translation error:", error) } *)
        {| yields := ys; outcome := Normal; remote_requests := [text];
           console := ["Translation error: " ^^ e] |}
    end.

(** ** The generator, one suspension at a time

    The consumer of the generator runs on the event loop: between two chunks
    of one request other handlers may run.  [GenPhase] is the suspended
    generator: which [await] it is parked at and, in the loop, its locals and
    what the service has yet to deliver. *)

Inductive GenPhase : Type :=
| AwaitingCall (remote : RemoteCall)
| AwaitingChunk (st : DecoderState) (cs : list (option string)) (e : StreamEnd).

(** What the consumer observes when the generator is resumed. *)
Inductive GenSignal : Type :=
| GYield (r : TranslationResult) (k : GenPhase)
| GAwait (k : GenPhase)
| GReturn
| GThrow (e : string).

(** The start of the generator (line 29, then the call of line 43): the
    suspended generator, if it did not return at once, and the texts sent to
    [generateContentStream]. *)
Definition gen_start (text : string) (remote : RemoteCall)
  : option GenPhase * list string :=
  if negb (JS.truthy (JS.trim text)) then (None, [])
  else (Some (AwaitingCall remote), [text]).

(** Resuming inside the [try] block: the awaited promise settles. *)
Definition try_resume (g : GenPhase) : GenSignal :=
  match g with
  | AwaitingCall (CallRejects e) => GThrow e
  | AwaitingCall (CallResolves s) =>
      GAwait (AwaitingChunk decoder_init (chunks s) (ending s))
  | AwaitingChunk st [] EndOfStream => GReturn
  | AwaitingChunk st [] (StreamError e) => GThrow e
  | AwaitingChunk st (c :: cs) e =>
      let '(st', y) := decode_chunk st c in
      match y with
      | Some r => GYield r (AwaitingChunk st' cs e)
      | None => GAwait (AwaitingChunk st' cs e)
      end
  end.

(** Resuming the generator: the [catch] of lines 70-72 around [try_resume];
    the second component is what is written to the console. *)
Definition gen_resume (g : GenPhase) : GenSignal * list string :=
  match try_resume g with
  | GThrow e => (GReturn, ["Translation error: " ^^ e])
  | sig => (sig, [])
  end.

(** ** The component state of [App] and its environment *)

(** A pending [setTimeout] of the debounce effect; the callback is
    [() => performTranslation(input)] with [input] captured as
    [timer_text]. *)
Record Timer : Type := mkTimer {
  timer_id : positive;
  timer_delay : nat;
  timer_text : string
}.

(** The observable history of the coordinator, oldest first. *)
Inductive HistEvent : Type :=
| HSubmit (req : nat) (text : string)
| HPublish (req : nat) (r : TranslationResult)
| HClear.

Record AppState : Type := mkApp {
  (* useState *)
  input : string;
  translation : option TranslationResult;
  isTranslating : bool;
  (* useRef *)
  debounceTimerRef : option positive;
  abortControllerRef : option nat;
  (* the event loop and the service *)
  timers : list Timer;
  next_timer : positive;
  aborted : list nat;
  requests : list (nat * GenPhase);
  next_request : nat;
  remote_calls : list string;
  app_console : list string;
  history : list HistEvent
}.

Definition set_input (v : string) (s : AppState) : AppState :=
  mkApp v (translation s) (isTranslating s) (debounceTimerRef s)
        (abortControllerRef s) (timers s) (next_timer s) (aborted s)
        (requests s) (next_request s) (remote_calls s) (app_console s)
        (history s).

Definition set_translation (v : option TranslationResult) (s : AppState) : AppState :=
  mkApp (input s) v (isTranslating s) (debounceTimerRef s)
        (abortControllerRef s) (timers s) (next_timer s) (aborted s)
        (requests s) (next_request s) (remote_calls s) (app_console s)
        (history s).

Definition setIsTranslating (v : bool) (s : AppState) : AppState :=
  mkApp (input s) (translation s) v (debounceTimerRef s)
        (abortControllerRef s) (timers s) (next_timer s) (aborted s)
        (requests s) (next_request s) (remote_calls s) (app_console s)
        (history s).

Definition set_debounceTimerRef (v : option positive) (s : AppState) : AppState :=
  mkApp (input s) (translation s) (isTranslating s) v
        (abortControllerRef s) (timers s) (next_timer s) (aborted s)
        (requests s) (next_request s) (remote_calls s) (app_console s)
        (history s).

Definition set_abortControllerRef (v : option nat) (s : AppState) : AppState :=
  mkApp (input s) (translation s) (isTranslating s) (debounceTimerRef s)
        v (timers s) (next_timer s) (aborted s)
        (requests s) (next_request s) (remote_calls s) (app_console s)
        (history s).

Definition set_timers (v : list Timer) (s : AppState) : AppState :=
  mkApp (input s) (translation s) (isTranslating s) (debounceTimerRef s)
        (abortControllerRef s) v (next_timer s) (aborted s)
        (requests s) (next_request s) (remote_calls s) (app_console s)
        (history s).

Definition set_next_timer (v : positive) (s : AppState) : AppState :=
  mkApp (input s) (translation s) (isTranslating s) (debounceTimerRef s)
        (abortControllerRef s) (timers s) v (aborted s)
        (requests s) (next_request s) (remote_calls s) (app_console s)
        (history s).

Definition set_aborted (v : list nat) (s : AppState) : AppState :=
  mkApp (input s) (translation s) (isTranslating s) (debounceTimerRef s)
        (abortControllerRef s) (timers s) (next_timer s) v
        (requests s) (next_request s) (remote_calls s) (app_console s)
        (history s).

Definition set_requests (v : list (nat * GenPhase)) (s : AppState) : AppState :=
  mkApp (input s) (translation s) (isTranslating s) (debounceTimerRef s)
        (abortControllerRef s) (timers s) (next_timer s) (aborted s)
        v (next_request s) (remote_calls s) (app_console s)
        (history s).

Definition set_next_request (v : nat) (s : AppState) : AppState :=
  mkApp (input s) (translation s) (isTranslating s) (debounceTimerRef s)
        (abortControllerRef s) (timers s) (next_timer s) (aborted s)
        (requests s) v (remote_calls s) (app_console s)
        (history s).

Definition set_remote_calls (v : list string) (s : AppState) : AppState :=
  mkApp (input s) (translation s) (isTranslating s) (debounceTimerRef s)
        (abortControllerRef s) (timers s) (next_timer s) (aborted s)
        (requests s) (next_request s) v (app_console s)
        (history s).

Definition set_app_console (v : list string) (s : AppState) : AppState :=
  mkApp (input s) (translation s) (isTranslating s) (debounceTimerRef s)
        (abortControllerRef s) (timers s) (next_timer s) (aborted s)
        (requests s) (next_request s) (remote_calls s) v
        (history s).

Definition set_history (v : list HistEvent) (s : AppState) : AppState :=
  mkApp (input s) (translation s) (isTranslating s) (debounceTimerRef s)
        (abortControllerRef s) (timers s) (next_timer s) (aborted s)
        (requests s) (next_request s) (remote_calls s) (app_console s)
        v.

(** *** The in-flight requests, keyed by request number *)

Fixpoint lookup (id : nat) (l : list (nat * GenPhase)) : option GenPhase :=
  match l with
  | [] => None
  | (k, g) :: l' => if k =? id then Some g else lookup id l'
  end.

Fixpoint update (id : nat) (g : GenPhase) (l : list (nat * GenPhase))
  : list (nat * GenPhase) :=
  match l with
  | [] => []
  | (k, g0) :: l' => if k =? id then (k, g) :: l' else (k, g0) :: update id g l'
  end.

Definition remove (id : nat) (l : list (nat * GenPhase)) : list (nat * GenPhase) :=
  filter (fun kg => negb (fst kg =? id)) l.

(** *** Primitives of the platform and of React *)

(** [setTranslation(null)] *)
Definition setTranslation_null (s : AppState) : AppState :=
  set_history (history s ++ [HClear]) (set_translation None s).

(** [setTranslation(result)] in the loop of request [req] *)
Definition setTranslation (req : nat) (r : TranslationResult) (s : AppState)
  : AppState :=
  set_history (history s ++ [HPublish req r]) (set_translation (Some r) s).

Definition clearTimeout (id : positive) (s : AppState) : AppState :=
  set_timers (filter (fun t => negb (Pos.eqb (timer_id t) id)) (timers s)) s.

(** [setTimeout(callback, delay)]: the handle returned and the new state.
    Handles are positive integers, never reused. *)
Definition setTimeout (delay : nat) (text : string) (s : AppState)
  : positive * AppState :=
  let id := next_timer s in
  (id, set_next_timer (Pos.succ id)
         (set_timers (timers s ++ [mkTimer id delay text]) s)).

(** [console.error] *)
Definition console_error (lines : list string) (s : AppState) : AppState :=
  set_app_console (app_console s ++ lines) s.

(** ** The request coordinator: [performTranslation], lines 162-187 *)

(** The call of [performTranslation(text)] up to its first suspension.
    [remote] is how the service answers the call, should one be made. *)
Definition performTranslation (text : string) (remote : RemoteCall)
  (s : AppState) : AppState :=
  if negb (JS.truthy (JS.trim text)) then
    setIsTranslating false (setTranslation_null s)
  else
    let s := setIsTranslating true s in
    (* Cancel previous translation if any *)
    let s := match abortControllerRef s with
             | Some c => set_aborted (c :: aborted s) s
             | None => s
             end in
    let req := next_request s in
    let s := set_next_request (S req) (set_abortControllerRef (Some req) s) in
    let s := set_history (history s ++ [HSubmit req text]) s in
    match gen_start text remote with
    | (Some g, calls) =>
        set_requests ((req, g) :: requests s)
          (set_remote_calls (remote_calls s ++ calls) s)
    | (None, calls) =>
        (* the loop ends at once; finally *)
        setIsTranslating false (set_remote_calls (remote_calls s ++ calls) s)
    end.

(** The loop [for await (const result of stream)] of request [req] resumed
    once (lines 179-186). *)
Definition resume (req : nat) (s : AppState) : AppState :=
  match lookup req (requests s) with
  | None => s
  | Some g =>
      let '(sig, logs) := gen_resume g in
      let s := console_error logs s in
      match sig with
      | GYield r k =>
          set_requests (update req k (requests s)) (setTranslation req r s)
      | GAwait k => set_requests (update req k (requests s)) s
      | GReturn =>
          (* finally *)
          setIsTranslating false (set_requests (remove req (requests s)) s)
      | GThrow e =>
          (* catch (e) { console.error("Stream error", e) } finally *)
          setIsTranslating false
            (set_requests (remove req (requests s))
               (console_error ["Stream error: " ^^ e] s))
      end
  end.

(** ** The debouncer: the effect of lines 189-207 *)

(** The cleanup function returned by the effect. *)
Definition effect_cleanup (s : AppState) : AppState :=
  match debounceTimerRef s with
  | Some id => clearTimeout id s
  | None => s
  end.

(** The delay of line 196. *)
Definition debounce_delay (text : string) : nat :=
  if String.length text <? 5 then 200 else 400.

(** The effect body. *)
Definition effect_body (s : AppState) : AppState :=
  let s := match debounceTimerRef s with
           | Some id => clearTimeout id s
           | None => s
           end in
  if JS.truthy (input s) then
    let '(id, s) := setTimeout (debounce_delay (input s)) (input s) s in
    set_debounceTimerRef (Some id) s
  else setTranslation_null s.

(** [setInput(text)] followed by the render it causes: when the value does
    not change the dependencies of the effect are unchanged and nothing
    runs; otherwise the previous cleanup runs, then the effect. *)
Definition setInput (text : string) (s : AppState) : AppState :=
  if String.eqb text (input s) then s
  else effect_body (effect_cleanup (set_input text s)).

(** The debounce timer [id] fires: the event loop takes it off the pending
    timers and runs its callback. *)
Definition fire (id : positive) (remote : RemoteCall) (s : AppState) : AppState :=
  match find (fun t => Pos.eqb (timer_id t) id) (timers s) with
  | None => s
  | Some t => performTranslation (timer_text t) remote (clearTimeout id s)
  end.

(** The component after mounting: the effect has run once with the empty
    input. *)
Definition app_init : AppState :=
  effect_body
    {| input := EmptyString; translation := None; isTranslating := false;
       debounceTimerRef := None; abortControllerRef := None;
       timers := []; next_timer := 1%positive; aborted := [];
       requests := []; next_request := 0; remote_calls := [];
       app_console := []; history := [] |}.

(** ** The event loop *)

Inductive Event : Type :=
| EvSetInput (text : string)
| EvTimer (id : positive) (remote : RemoteCall)
| EvResume (req : nat).

Definition step (ev : Event) (s : AppState) : AppState :=
  match ev with
  | EvSetInput text => setInput text s
  | EvTimer id remote => fire id remote s
  | EvResume req => resume req s
  end.

Definition run (evs : list Event) (s : AppState) : AppState :=
  fold_left (fun s ev => step ev s) evs s.

(** The states the component can be in. *)
Definition reachable (s : AppState) : Prop :=
  exists evs, s = run evs app_init.

(** ** Speech output: [speak], lines 217-262 *)

(** The answer of the remote speech synthesis: the promise rejects, or
    resolves with or without [inlineData.data] at the inspected path. *)
Inductive TtsResponse : Type :=
| TtsRejects (e : string)
| TtsResolves (base64Audio : option string).

(** Which flag the local [setter] stands for. *)
Inductive Side : Type := SourceSide | TranslationSide.

(** The shared [<audio>] element behind [audioRef]. *)
Record AudioElement : Type := mkAudio {
  src : string;
  onended : option Side;
  plays : nat
}.

(** A [SpeechSynthesisUtterance] handed to [speechSynthesis.speak]; its
    [onend] and [onerror] handlers reset the flag of [utt_side]. *)
Record Utterance : Type := mkUtterance {
  utt_text : string;
  utt_lang : string;
  utt_side : Side
}.

Record SpeechState : Type := mkSpeech {
  isSpeakingSource : bool;
  isSpeakingTranslation : bool;
  audioRef : option AudioElement;
  tts_calls : list (string * string);
  utterances : list Utterance;
  speech_console : list string
}.

(** [setter(v)] *)
Definition setter (side : Side) (v : bool) (s : SpeechState) : SpeechState :=
  match side with
  | SourceSide =>
      mkSpeech v (isSpeakingTranslation s) (audioRef s) (tts_calls s)
               (utterances s) (speech_console s)
  | TranslationSide =>
      mkSpeech (isSpeakingSource s) v (audioRef s) (tts_calls s)
               (utterances s) (speech_console s)
  end.

(** The fallback of lines 253-257. *)
Definition speak_local (text lang : string) (side : Side) (s : SpeechState)
  : SpeechState :=
  let tag := if String.eqb lang "zh" then "zh-CN" else "en-US" in
  mkSpeech (isSpeakingSource s) (isSpeakingTranslation s) (audioRef s)
           (tts_calls s) (utterances s ++ [mkUtterance text tag side])
           (speech_console s).

(** [speak(text, lang, isSource)] run to its end; [tts] is the answer of the
    remote synthesis, should it be called. *)
Definition speak (text lang : string) (isSource : bool) (tts : TtsResponse)
  (s : SpeechState) : SpeechState :=
  if negb (JS.truthy text) then s
  else
    let side := if isSource then SourceSide else TranslationSide in
    let s := setter side true s in
    if negb isSource && (String.length text <? 500) then
      let voiceName := if String.eqb lang "en" then "Puck" else "Kore" in
      let s := mkSpeech (isSpeakingSource s) (isSpeakingTranslation s)
                        (audioRef s) (tts_calls s ++ [(text, voiceName)])
                        (utterances s) (speech_console s) in
      match tts with
      | TtsRejects e =>
          (* catch (error) *)
          setter side false
            (mkSpeech (isSpeakingSource s) (isSpeakingTranslation s)
                      (audioRef s) (tts_calls s) (utterances s)
                      (speech_console s ++ ["Speech error: " ^^ e]))
      | TtsResolves base64Audio =>
          match (if JS.truthy_opt base64Audio then base64Audio else None),
                audioRef s with
          | Some data, Some a =>
              mkSpeech (isSpeakingSource s) (isSpeakingTranslation s)
                       (Some (mkAudio ("data:audio/mp3;base64," ^^ data)
                                      (Some side) (S (plays a))))
                       (tts_calls s) (utterances s) (speech_console s)
          | _, _ => speak_local text lang side s
          end
      end
    else speak_local text lang side s.

(** ** Notions of the specification

    The definitions below follow the words of the specification, not the
    code; the theorems compare the code with them. *)

(** The first line of a chunk: its text before the first line feed. *)
Fixpoint spec_first_line (s : string) : string :=
  match s with
  | EmptyString => EmptyString
  | String c s' =>
      if Ascii.eqb c JS.LF then EmptyString else String c (spec_first_line s')
  end.

(** The text of a chunk after its first line feed. *)
Fixpoint spec_after_first_newline (s : string) : string :=
  match s with
  | EmptyString => EmptyString
  | String c s' =>
      if Ascii.eqb c JS.LF then s' else spec_after_first_newline s'
  end.

(** The language read off a line: [zh] when its lower-cased content
    contains the substring zh, [en] otherwise. *)
Definition spec_language (line : string) : string :=
  if JS.includes (JS.toLowerCase line) "zh" then "zh" else "en".

(** A text is blank when it is empty or made of white space only. *)
Fixpoint spec_blank (s : string) : bool :=
  match s with
  | EmptyString => true
  | String c s' => JS.isWhiteSpace c && spec_blank s'
  end.

(** The non-empty chunks of a stream, in arrival order. *)
Fixpoint nonempty_chunks (cs : list (option string)) : list string :=
  match cs with
  | [] => []
  | Some (String c s) :: cs' => String c s :: nonempty_chunks cs'
  | _ :: cs' => nonempty_chunks cs'
  end.

(** All the strings of a list, one after the other. *)
Fixpoint concat_all (l : list string) : string :=
  match l with
  | [] => EmptyString
  | x :: l' => x ^^ concat_all l'
  end.

(** The translation buffer after the given non-empty chunks: the text after
    the first line feed of the first one, then the others verbatim. *)
Definition spec_buffer (ne : list string) : string :=
  match ne with
  | [] => EmptyString
  | c :: cs => spec_after_first_newline c ^^ concat_all cs
  end.

(** [b] extends [a]: [a] is a prefix of [b]. *)
Definition extends (b a : string) : Prop := exists suffix, b = a ^^ suffix.

(** Each string of the list extends the one before it, the first one
    extends [prev]. *)
Fixpoint prefix_growing (prev : string) (l : list string) : Prop :=
  match l with
  | [] => True
  | x :: l' => extends x prev /\ prefix_growing x l'
  end.

(** The translations yielded once the language is known: the buffer grows
    by one chunk per non-empty chunk. *)
Fixpoint running (acc : string) (ne : list string) : list string :=
  match ne with
  | [] => []
  | c :: ne' => (acc ^^ c) :: running (acc ^^ c) ne'
  end.

(** What the service delivers before the stream ends or fails. *)
Definition delivered (remote : RemoteCall) : list (option string) :=
  match remote with
  | CallRejects _ => []
  | CallResolves s => chunks s
  end.

(** The error with which the call or its stream fails, if it does. *)
Definition failure (remote : RemoteCall) : option string :=
  match remote with
  | CallRejects e => Some e
  | CallResolves s =>
      match ending s with
      | EndOfStream => None
      | StreamError e => Some e
      end
  end.

(** The number of times the loop of a request is resumed before it ends:
    once for the call, once per chunk and once for the end of the stream. *)
Definition resumptions (remote : RemoteCall) : nat :=
  match remote with
  | CallRejects _ => 1
  | CallResolves s => 2 + length (chunks s)
  end.

(** The results published by the loops of the requests, oldest first. *)
Fixpoint publishes (h : list HistEvent) : list TranslationResult :=
  match h with
  | [] => []
  | HPublish _ r :: h' => r :: publishes h'
  | _ :: h' => publishes h'
  end.

(** The results published by a request after a different, newer request was
    submitted; [latest] is the last request submitted so far. *)
Fixpoint stale_publishes (latest : option nat) (h : list HistEvent)
  : list (nat * TranslationResult) :=
  match h with
  | [] => []
  | HSubmit req _ :: h' => stale_publishes (Some req) h'
  | HPublish req r :: h' =>
      match latest with
      | Some l => if l =? req then stale_publishes latest h'
                  else (req, r) :: stale_publishes latest h'
      | None => stale_publishes latest h'
      end
  | HClear :: h' => stale_publishes latest h'
  end.

(** The debounce timers never outnumber one, are the one the ref points to,
    and carry handles below the next handle. *)
Definition timers_inv (s : AppState) : Prop :=
  length (timers s) <= 1
  /\ (forall t, In t (timers s) -> debounceTimerRef s = Some (timer_id t))
  /\ (forall t, In t (timers s) -> (timer_id t < next_timer s)%positive).

(** ** Scenarios *)

Definition en_result (t : string) : TranslationResult :=
  {| TR.detectedLanguage := "en"; TR.translation := t; TR.isComplete := None |}.

(** The stream of the scenario of the specification: the chunks [en] and a
    line feed, [Bon], [jour], then the normal end. *)
Definition bonjour_stream : RemoteStream :=
  {| chunks := [Some ("en" ^^ String JS.LF EmptyString); Some "Bon"; Some "jour"];
     ending := EndOfStream |}.

(** Typing [hello], the debounce timer firing, and the stream consumed to
    its end. *)
Definition bonjour_events : list Event :=
  [EvSetInput "hello"; EvTimer 1%positive (CallResolves bonjour_stream);
   EvResume 0; EvResume 0; EvResume 0; EvResume 0; EvResume 0].

(** A stream that ends normally without a non-empty chunk. *)
Definition silent_stream : RemoteStream :=
  {| chunks := [None; Some EmptyString]; ending := EndOfStream |}.

(** After the scenario above the input changes and the new request gets a
    silent stream. *)
Definition silent_events : list Event :=
  bonjour_events
  ++ [EvSetInput "hello!"; EvTimer 2%positive (CallResolves silent_stream);
      EvResume 1; EvResume 1; EvResume 1; EvResume 1].

(** Two overlapping requests.  The first is answered in two chunks; between
    them the input changes, the second request is submitted and publishes
    its result; then the second chunk of the first request arrives. *)
Definition old_stream : RemoteStream :=
  {| chunks := [Some ("en" ^^ String JS.LF EmptyString ^^ "Bon"); Some "jour"];
     ending := EndOfStream |}.

Definition new_stream : RemoteStream :=
  {| chunks := [Some ("en" ^^ String JS.LF EmptyString ^^ "Bonjour le monde")];
     ending := EndOfStream |}.

Definition race_events : list Event :=
  [EvSetInput "hello"; EvTimer 1%positive (CallResolves old_stream);
   EvResume 0; EvResume 0;
   EvSetInput "hello world"; EvTimer 2%positive (CallResolves new_stream);
   EvResume 1; EvResume 1;
   EvResume 0].

(** ** The buttons that speak: [speakSource] and [speakTranslation],
    lines 264-274 *)

(** [speakSource()]: the input is read in the detected language, Chinese
    unless English was detected. *)
Definition speakSource (tts : TtsResponse) (a : AppState) (s : SpeechState)
  : SpeechState :=
  let lang := match translation a with
              | Some r => if String.eqb (TR.detectedLanguage r) "en"
                          then "en" else "zh"
              | None => "zh"
              end in
  speak (input a) lang true tts s.

(** [speakTranslation()]: the translation is read in the other language. *)
Definition speakTranslation (tts : TtsResponse) (a : AppState) (s : SpeechState)
  : SpeechState :=
  match translation a with
  | Some r =>
      if JS.truthy (TR.translation r) then
        let lang := if String.eqb (TR.detectedLanguage r) "zh"
                    then "en" else "zh" in
        speak (TR.translation r) lang false tts s
      else s
  | None => s
  end.



(** ** The clipboard: [copyToClipboard], lines 209-215 *)

Record ClipboardState : Type := mkClipboard {
  copied : bool;
  clipboard : list string;
  copy_timers : list nat
}.

(** [copyToClipboard()]; [clipboard] lists the texts written, [copy_timers]
    the delays of the pending resets of [copied], oldest first. *)
Definition copyToClipboard (a : AppState) (c : ClipboardState) : ClipboardState :=
  match translation a with
  | Some r =>
      if JS.truthy (TR.translation r) then
        mkClipboard true (clipboard c ++ [TR.translation r])
                    (copy_timers c ++ [2000])
      else c
  | None => c
  end.

(** The oldest pending reset fires: [() => setCopied(false)]. *)
Definition copied_timeout (c : ClipboardState) : ClipboardState :=
  match copy_timers c with
  | [] => c
  | _ :: ts => mkClipboard false (clipboard c) ts
  end.

Inductive ClipboardEvent : Type :=
| EvCopy (a : AppState)
| EvCopiedTimeout.

Definition clipboard_step (ev : ClipboardEvent) (c : ClipboardState)
  : ClipboardState :=
  match ev with
  | EvCopy a => copyToClipboard a c
  | EvCopiedTimeout => copied_timeout c
  end.

Definition clipboard_init : ClipboardState :=
  {| copied := false; clipboard := []; copy_timers := [] |}.

(** ** Speech recognition: lines 91-159 *)

(** A [SpeechRecognitionResult]: its flag and the transcript of its first
    alternative. *)
Record RecognitionResult : Type := mkRecResult {
  isFinal : bool;
  transcript : string
}.

Record RecognitionEvent : Type := mkRecEvent {
  resultIndex : nat;
  results : list RecognitionResult
}.

(** The loop of lines 104-110 over the results still to visit: the two
    accumulators [interimTranscript] and [finalTranscript]. *)
Fixpoint onresult_loop (rs : list RecognitionResult)
  (interimTranscript finalTranscript : string) : string * string :=
  match rs with
  | [] => (interimTranscript, finalTranscript)
  | r :: rs' =>
      if isFinal r
      then onresult_loop rs' interimTranscript (finalTranscript ^^ transcript r)
      else onresult_loop rs' (interimTranscript ^^ transcript r) finalTranscript
  end.

(** [finalTranscript || interimTranscript] of line 113. *)
Definition currentText (event : RecognitionEvent) : string :=
  let '(interimTranscript, finalTranscript) :=
    onresult_loop (skipn (resultIndex event) (results event))
                  EmptyString EmptyString in
  if JS.truthy finalTranscript then finalTranscript else interimTranscript.

(** [recognition.onresult] *)
Definition onresult (event : RecognitionEvent) (s : AppState) : AppState :=
  if JS.truthy (currentText event) then setInput (currentText event) s else s.

(** A call made on a recognition object; [RStart] records whether the call
    threw. *)
Inductive RecCall : Type :=
| RStart (threw : bool)
| RStop.

(** A [SpeechRecognition] object made by the effect of lines 91-145: the
    value of [isRecording] its handlers closed over, and the calls it has
    received. *)
Record Recognition : Type := mkRecognition {
  rec_isRecording : bool;
  rec_calls : list RecCall
}.

Record RecordingState : Type := mkRecording {
  isRecording : bool;
  recognitionRef : option nat;
  recognitions : list Recognition;
  speechSupported : bool;
  rec_console : list string
}.

(** The effect: when the platform has speech recognition a new object is
    made, whose handlers close over the current [isRecording], and the ref
    is pointed to it. *)
Definition recognition_effect (s : RecordingState) : RecordingState :=
  if speechSupported s then
    mkRecording (isRecording s) (Some (length (recognitions s)))
                (recognitions s ++ [mkRecognition (isRecording s) []])
                (speechSupported s) (rec_console s)
  else s.

(** [setIsRecording(v)] and the render it causes: the effect depends on
    [isRecording] and runs again when it changes. *)
Definition setIsRecording (v : bool) (s : RecordingState) : RecordingState :=
  if Bool.eqb v (isRecording s) then s
  else recognition_effect
         (mkRecording v (recognitionRef s) (recognitions s)
                      (speechSupported s) (rec_console s)).

(** A method call on the recognition object number [id]. *)
Fixpoint record_call (id : nat) (c : RecCall) (l : list Recognition)
  : list Recognition :=
  match l, id with
  | [], _ => []
  | r :: l', 0 => mkRecognition (rec_isRecording r) (rec_calls r ++ [c]) :: l'
  | r :: l', S id' => r :: record_call id' c l'
  end.

Definition call_on (id : nat) (c : RecCall) (s : RecordingState)
  : RecordingState :=
  mkRecording (isRecording s) (recognitionRef s)
              (record_call id c (recognitions s))
              (speechSupported s) (rec_console s).

Definition rec_console_error (line : string) (s : RecordingState)
  : RecordingState :=
  mkRecording (isRecording s) (recognitionRef s) (recognitions s)
              (speechSupported s) (rec_console s ++ [line]).

(** [toggleRecording()], lines 147-159.  [throws] tells whether
    [start()] throws.  The calls on [recognitionRef.current] are made by the
    handler itself; the state set by [setIsRecording] is seen, and the
    effect run, only at the render that follows. *)
Definition toggleRecording (throws : bool) (s : RecordingState) : RecordingState :=
  if isRecording s then
    let s1 := match recognitionRef s with
              | Some id => call_on id RStop s
              | None => s
              end in
    setIsRecording false s1
  else
    let s1 := match recognitionRef s with
              | Some id =>
                  let s' := call_on id (RStart throws) s in
                  if throws then rec_console_error "Start error" s' else s'
              | None => s
              end in
    setIsRecording true s1.

(** [recognition.onerror] *)
Definition onerror (error : string) (s : RecordingState) : RecordingState :=
  let s := rec_console_error ("Speech recognition error: " ^^ error) s in
  if String.eqb error "no-speech" then s else setIsRecording false s.

(** [recognition.onend] of the object number [id]; [isRecording] is the
    value the handler closed over and [recognition] the object itself. *)
Definition onend (id : nat) (throws : bool) (s : RecordingState) : RecordingState :=
  match nth_error (recognitions s) id with
  | None => s
  | Some r =>
      if rec_isRecording r then
        let s' := call_on id (RStart throws) s in
        if throws then setIsRecording false s' else s'
      else s
  end.

(** The object number [id] has been started. *)
Definition started (id : nat) (s : RecordingState) : bool :=
  match nth_error (recognitions s) id with
  | Some r => existsb (fun c => match c with RStart false => true | _ => false end)
                      (rec_calls r)
  | None => false
  end.

(** The component after mounting, on a platform with or without speech
    recognition. *)
Definition recording_init (supported : bool) : RecordingState :=
  recognition_effect
    {| isRecording := false; recognitionRef := None; recognitions := [];
       speechSupported := supported; rec_console := [] |}.

(** The platform fires [end] and [error] only on an object that has been
    started. *)
Inductive RecordingEvent : Type :=
| EvToggle (throws : bool)
| EvEnd (id : nat) (throws : bool)
| EvError (id : nat) (error : string).

Definition recording_step (ev : RecordingEvent) (s : RecordingState)
  : RecordingState :=
  match ev with
  | EvToggle throws => toggleRecording throws s
  | EvEnd id throws => if started id s then onend id throws s else s
  | EvError id error => if started id s then onerror error s else s
  end.

Definition recording_run (evs : list RecordingEvent) (s : RecordingState)
  : RecordingState :=
  fold_left (fun s ev => recording_step ev s) evs s.

Definition recording_reachable (s : RecordingState) : Prop :=
  exists supported evs, s = recording_run evs (recording_init supported).

(** ** Notions used to state what the component keeps invariant *)

(** The results published by the loop of request [req], oldest first. *)
Fixpoint published_by (req : nat) (h : list HistEvent) : list TranslationResult :=
  match h with
  | [] => []
  | HPublish id r :: h' =>
      if id =? req then r :: published_by req h' else published_by req h'
  | _ :: h' => published_by req h'
  end.

(** The texts of the requests submitted, oldest first. *)
Fixpoint submitted (h : list HistEvent) : list string :=
  match h with
  | [] => []
  | HSubmit _ text :: h' => text :: submitted h'
  | _ :: h' => submitted h'
  end.

(** The two values of the type ['zh' | 'en']. *)
Definition known_language (l : string) : Prop := l = "zh" \/ l = "en".

(** What holds of the results one request has published. *)
Definition well_published (rs : list TranslationResult) : Prop :=
  prefix_growing EmptyString (map TR.translation rs)
  /\ (forall r1 r2, In r1 rs -> In r2 rs ->
        TR.detectedLanguage r1 = TR.detectedLanguage r2)
  /\ Forall (fun r => known_language (TR.detectedLanguage r)
                      /\ TR.isComplete r = None) rs.

(** How the locals of a suspended generator relate to what its request has
    published. *)
Definition request_inv (h : list HistEvent) (id : nat) (g : GenPhase) : Prop :=
  match g with
  | AwaitingCall _ => published_by id h = []
  | AwaitingChunk st _ _ =>
      (st = decoder_init /\ published_by id h = [])
      \/ (known_language (detectedLang st)
          /\ Forall (fun r => TR.detectedLanguage r = detectedLang st)
                    (published_by id h)
          /\ last (map TR.translation (published_by id h)) EmptyString
             = fullText st)
  end.

Definition stream_inv (s : AppState) : Prop :=
  (forall id g, lookup id (requests s) = Some g ->
     id < next_request s /\ request_inv (history s) id g)
  /\ (forall id, next_request s <= id -> published_by id (history s) = [])
  /\ (forall id, well_published (published_by id (history s)))
  /\ (forall r, translation s = Some r ->
        exists id, In r (published_by id (history s))).

(** One call of the service per request submitted, and the bookkeeping of
    the abort controllers. *)
Definition calls_inv (s : AppState) : Prop :=
  remote_calls s = submitted (history s)
  /\ length (remote_calls s) = next_request s
  /\ Forall (fun t => JS.truthy (JS.trim t) = true) (remote_calls s)
  /\ abortControllerRef s
     = match next_request s with 0 => None | S n => Some n end
  /\ aborted s = rev (seq 0 (pred (next_request s))).

(** A pending debounce timer is for the current input. *)
Definition timer_text_inv (s : AppState) : Prop :=
  forall t, In t (timers s) ->
    timer_text t = input s
    /\ timer_delay t = debounce_delay (input s)
    /\ JS.truthy (input s) = true.

(** What one event does to the coordinator, whatever it does to the timers,
    the input and the console. *)
Inductive transition (s s' : AppState) : Prop :=
| T_same :
    history s' = history s -> translation s' = translation s ->
    requests s' = requests s -> next_request s' = next_request s ->
    remote_calls s' = remote_calls s ->
    abortControllerRef s' = abortControllerRef s -> aborted s' = aborted s ->
    transition s s'
| T_clear :
    history s' = history s ++ [HClear] -> translation s' = None ->
    requests s' = requests s -> next_request s' = next_request s ->
    remote_calls s' = remote_calls s ->
    abortControllerRef s' = abortControllerRef s -> aborted s' = aborted s ->
    transition s s'
| T_submit (text : string) (remote : RemoteCall) :
    JS.truthy (JS.trim text) = true ->
    history s' = history s ++ [HSubmit (next_request s) text] ->
    translation s' = translation s ->
    requests s' = (next_request s, AwaitingCall remote) :: requests s ->
    next_request s' = S (next_request s) ->
    remote_calls s' = remote_calls s ++ [text] ->
    abortControllerRef s' = Some (next_request s) ->
    aborted s' = match abortControllerRef s with
                 | Some c => c :: aborted s
                 | None => aborted s
                 end ->
    transition s s'
| T_resolved (id : nat) (r : RemoteStream) :
    lookup id (requests s) = Some (AwaitingCall (CallResolves r)) ->
    history s' = history s -> translation s' = translation s ->
    requests s'
    = update id (AwaitingChunk decoder_init (chunks r) (ending r)) (requests s) ->
    next_request s' = next_request s ->
    remote_calls s' = remote_calls s ->
    abortControllerRef s' = abortControllerRef s -> aborted s' = aborted s ->
    transition s s'
| T_finished (id : nat) :
    history s' = history s -> translation s' = translation s ->
    requests s' = remove id (requests s) ->
    next_request s' = next_request s ->
    remote_calls s' = remote_calls s ->
    abortControllerRef s' = abortControllerRef s -> aborted s' = aborted s ->
    transition s s'
| T_skipped (id : nat) (st : DecoderState) (c : option string)
    (cs : list (option string)) (e : StreamEnd) :
    lookup id (requests s) = Some (AwaitingChunk st (c :: cs) e) ->
    decode_chunk st c = (st, None) ->
    history s' = history s -> translation s' = translation s ->
    requests s' = update id (AwaitingChunk st cs e) (requests s) ->
    next_request s' = next_request s ->
    remote_calls s' = remote_calls s ->
    abortControllerRef s' = abortControllerRef s -> aborted s' = aborted s ->
    transition s s'
| T_published (id : nat) (st st' : DecoderState) (c : option string)
    (cs : list (option string)) (e : StreamEnd) (r : TranslationResult) :
    lookup id (requests s) = Some (AwaitingChunk st (c :: cs) e) ->
    decode_chunk st c = (st', Some r) ->
    history s' = history s ++ [HPublish id r] -> translation s' = Some r ->
    requests s' = update id (AwaitingChunk st' cs e) (requests s) ->
    next_request s' = next_request s ->
    remote_calls s' = remote_calls s ->
    abortControllerRef s' = abortControllerRef s -> aborted s' = aborted s ->
    transition s s'.

(** The recognition objects in a state the component can reach: the ref
    points to the newest one, which has received no call and whose handlers
    closed over the current [isRecording]; an object has received at most
    one call, [start()] if it closed over [false] and [stop()] if it closed
    over [true]. *)
Definition recording_inv (s : RecordingState) : Prop :=
  (if speechSupported s
   then exists older,
          recognitions s = older ++ [mkRecognition (isRecording s) []]
          /\ recognitionRef s = Some (length older)
   else recognitions s = [] /\ recognitionRef s = None)
  /\ Forall (fun r =>
               rec_calls r = []
               \/ (rec_isRecording r = false /\ exists t, rec_calls r = [RStart t])
               \/ (rec_isRecording r = true /\ rec_calls r = [RStop]))
            (recognitions s).

(** The clipboard states the component can reach. *)
Definition clipboard_reachable (c : ClipboardState) : Prop :=
  exists evs, c = fold_left (fun c ev => clipboard_step ev c) evs clipboard_init.

(** The concatenation of the transcripts of the results with the given
    flag. *)
Definition transcripts (final : bool) (rs : list RecognitionResult) : string :=
  concat_all (map transcript (filter (fun r => Bool.eqb (isFinal r) final) rs)).


(** The side [speak] works for. *)
Definition side_of (isSource : bool) : Side :=
  if isSource then SourceSide else TranslationSide.

(** ** Facts about the string primitives *)

Lemma append_empty_r (s : string) : s ^^ EmptyString = s.
Proof. induction s as [|c s IH]; simpl; [reflexivity | now rewrite IH]. Qed.

Lemma append_assoc (a b c : string) : (a ^^ b) ^^ c = a ^^ (b ^^ c).
Proof. induction a as [|x a IH]; simpl; [reflexivity | now rewrite IH]. Qed.

Lemma split_nonempty (sep : ascii) (s : string) : JS.split sep s <> [].
Proof.
  destruct s as [|c s]; simpl; [discriminate|].
  destruct (Ascii.eqb c sep); [discriminate|].
  destruct (JS.split sep s); discriminate.
Qed.

Lemma split_first_line (s : string) :
  JS.first (JS.split JS.LF s) = spec_first_line s.
Proof.
  induction s as [|c s IH]; simpl; [reflexivity|].
  destruct (Ascii.eqb c JS.LF); [reflexivity|].
  destruct (JS.split JS.LF s) as [|l ls] eqn:E.
  - now destruct (split_nonempty JS.LF s).
  - simpl in *. now rewrite IH.
Qed.

Lemma join_split (s : string) :
  JS.join (String JS.LF EmptyString) (JS.split JS.LF s) = s.
Proof.
  induction s as [|c s IH]; simpl; [reflexivity|].
  destruct (Ascii.eqb c JS.LF) eqn:Ec.
  - apply Ascii.eqb_eq in Ec; subst c.
    destruct (JS.split JS.LF s) as [|l ls] eqn:E.
    + now destruct (split_nonempty JS.LF s).
    + simpl. f_equal. exact IH.
  - destruct (JS.split JS.LF s) as [|l ls] eqn:E.
    + now destruct (split_nonempty JS.LF s).
    + destruct ls as [|l' ls']; simpl in *; now rewrite IH.
Qed.

Lemma join_slice_split (s : string) :
  JS.join (String JS.LF EmptyString) (JS.slice1 (JS.split JS.LF s))
  = spec_after_first_newline s.
Proof.
  induction s as [|c s IH]; simpl; [reflexivity|].
  destruct (Ascii.eqb c JS.LF) eqn:Ec.
  - simpl. apply join_split.
  - destruct (JS.split JS.LF s) as [|l ls] eqn:E.
    + now destruct (split_nonempty JS.LF s).
    + simpl in *. exact IH.
Qed.

Lemma trim_blank (s : string) :
  spec_blank s = true -> JS.trim s = EmptyString.
Proof.
  unfold JS.trim. induction s as [|c s IH]; [reflexivity|].
  cbn [spec_blank JS.trimStart]. intros H.
  apply andb_prop in H as [Hc Hs]. rewrite Hc. now apply IH.
Qed.

Lemma whitespace_char (c : ascii) :
  JS.isWhiteSpace c = true ->
  JS.toLowerCaseChar c = c /\ c <> "z"%char /\ c <> "h"%char.
Proof.
  destruct c as [b0 b1 b2 b3 b4 b5 b6 b7].
  destruct b0, b1, b2, b3, b4, b5, b6, b7; vm_compute; intros H;
    try discriminate H; repeat split; discriminate.
Qed.

Lemma prefix_empty (s : string) : String.prefix EmptyString s = true.
Proof. now destruct s. Qed.

Lemma includes_cons (c : ascii) (s sub : string) :
  JS.includes (String c s) sub
  = String.prefix sub (String c s) || JS.includes s sub.
Proof. reflexivity. Qed.

Lemma prefix_zh_cons (c : ascii) (s : string) :
  String.prefix "zh" (String c s)
  = if Ascii.eqb c "z" then String.prefix "h" s else false.
Proof.
  cbn [String.prefix]. destruct (ascii_dec "z" c) as [<-|N].
  - reflexivity.
  - destruct (Ascii.eqb c "z") eqn:E; [|reflexivity].
    apply Ascii.eqb_eq in E. congruence.
Qed.

Lemma prefix_h_cons (c : ascii) (s : string) :
  String.prefix "h" (String c s) = Ascii.eqb c "h".
Proof.
  cbn [String.prefix]. destruct (ascii_dec "h" c) as [<-|N].
  - apply prefix_empty.
  - destruct (Ascii.eqb c "h") eqn:E; [|reflexivity].
    apply Ascii.eqb_eq in E. congruence.
Qed.

Lemma whitespace_not_z (c : ascii) :
  JS.isWhiteSpace c = true -> Ascii.eqb (JS.toLowerCaseChar c) "z" = false.
Proof.
  intros H. destruct (whitespace_char c H) as (-> & Nz & _).
  now apply Ascii.eqb_neq.
Qed.

Lemma whitespace_not_h (c : ascii) :
  JS.isWhiteSpace c = true -> Ascii.eqb (JS.toLowerCaseChar c) "h" = false.
Proof.
  intros H. destruct (whitespace_char c H) as (-> & _ & Nh).
  now apply Ascii.eqb_neq.
Qed.

Lemma includes_zh_trimStart (s : string) :
  JS.includes (JS.toLowerCase (JS.trimStart s)) "zh"
  = JS.includes (JS.toLowerCase s) "zh".
Proof.
  induction s as [|c s IH]; [reflexivity|].
  cbn [JS.trimStart]. destruct (JS.isWhiteSpace c) eqn:W; [|reflexivity].
  rewrite IH. cbn [JS.toLowerCase]. rewrite includes_cons, prefix_zh_cons.
  now rewrite (whitespace_not_z c W).
Qed.

Lemma starts_h_trimEnd (s : string) :
  String.prefix "h" (JS.toLowerCase (JS.trimEnd s))
  = String.prefix "h" (JS.toLowerCase s).
Proof.
  destruct s as [|c s]; [reflexivity|].
  cbn [JS.trimEnd]. destruct (JS.trimEnd s) as [|d t].
  - destruct (JS.isWhiteSpace c) eqn:W.
    + cbn [JS.toLowerCase]. rewrite prefix_h_cons, (whitespace_not_h c W).
      reflexivity.
    + cbn [JS.toLowerCase]. now rewrite !prefix_h_cons.
  - cbn [JS.toLowerCase]. now rewrite !prefix_h_cons.
Qed.

Lemma toLowerCase_cons (c : ascii) (s : string) :
  JS.toLowerCase (String c s) = String (JS.toLowerCaseChar c) (JS.toLowerCase s).
Proof. reflexivity. Qed.

Lemma includes_zh_trimEnd (s : string) :
  JS.includes (JS.toLowerCase (JS.trimEnd s)) "zh"
  = JS.includes (JS.toLowerCase s) "zh".
Proof.
  induction s as [|c s IH]; [reflexivity|].
  pose proof (starts_h_trimEnd s) as Hh.
  cbn [JS.trimEnd]. destruct (JS.trimEnd s) as [|d t].
  - rewrite (toLowerCase_cons c s), includes_cons, prefix_zh_cons, <- IH, <- Hh.
    destruct (JS.isWhiteSpace c).
    + cbn. now destruct (Ascii.eqb (JS.toLowerCaseChar c) "z").
    + rewrite (toLowerCase_cons c), includes_cons, prefix_zh_cons.
      reflexivity.
  - rewrite !(toLowerCase_cons c), !(includes_cons (JS.toLowerCaseChar c)),
      !prefix_zh_cons.
    now rewrite <- IH, <- Hh.
Qed.

Lemma includes_zh_trim (s : string) :
  JS.includes (JS.toLowerCase (JS.trim s)) "zh"
  = JS.includes (JS.toLowerCase s) "zh".
Proof.
  unfold JS.trim. now rewrite includes_zh_trimEnd, includes_zh_trimStart.
Qed.

(** ** The decoder *)

Lemma decode_chunk_falsy (st : DecoderState) (c : option string) :
  JS.truthy_opt c = false -> decode_chunk st c = (st, None).
Proof. destruct c as [[|a s]|]; simpl; intros H; now try discriminate H. Qed.

Lemma decode_chunk_first (st : DecoderState) (c : string) :
  JS.truthy c = true -> detectedLang st = EmptyString ->
  decode_chunk st (Some c)
  = ({| detectedLang := spec_language (spec_first_line c);
        fullText := fullText st ^^ spec_after_first_newline c |},
     Some {| TR.detectedLanguage := spec_language (spec_first_line c);
             TR.translation := fullText st ^^ spec_after_first_newline c;
             TR.isComplete := None |}).
Proof.
  intros Hc Hd. unfold decode_chunk. rewrite Hc, Hd. cbn [negb JS.truthy].
  rewrite split_first_line, join_slice_split, includes_zh_trim.
  reflexivity.
Qed.

Lemma decode_chunk_next (st : DecoderState) (c : string) :
  JS.truthy c = true -> JS.truthy (detectedLang st) = true ->
  decode_chunk st (Some c)
  = ({| detectedLang := detectedLang st; fullText := fullText st ^^ c |},
     Some {| TR.detectedLanguage := detectedLang st;
             TR.translation := fullText st ^^ c;
             TR.isComplete := None |}).
Proof. intros Hc Hd. unfold decode_chunk. now rewrite Hc, Hd. Qed.

Lemma spec_language_truthy (line : string) :
  JS.truthy (spec_language line) = true.
Proof. unfold spec_language. now destruct (JS.includes _ _). Qed.

Lemma truthy_false (s : string) : JS.truthy s = false -> s = EmptyString.
Proof. now destruct s. Qed.

Lemma extends_refl (a : string) : extends a a.
Proof. exists EmptyString. now rewrite append_empty_r. Qed.

Lemma extends_append (a b : string) : extends (a ^^ b) a.
Proof. now exists b. Qed.

Lemma decode_chunks_known (cs : list (option string)) : forall st,
  JS.truthy (detectedLang st) = true ->
  decode_chunks st cs
  = (map (fun t => TR.mk (detectedLang st) t None)
         (running (fullText st) (nonempty_chunks cs)),
     {| detectedLang := detectedLang st;
        fullText := fullText st ^^ concat_all (nonempty_chunks cs) |}).
Proof.
  induction cs as [|c cs IH]; intros st Hd.
  - simpl. rewrite append_empty_r. now destruct st.
  - cbn [decode_chunks]. destruct c as [[|a s]|].
    + rewrite decode_chunk_falsy by reflexivity. rewrite (IH st Hd). reflexivity.
    + rewrite decode_chunk_next by (reflexivity || assumption).
      rewrite IH by exact Hd. cbn [nonempty_chunks running map concat_all
        detectedLang fullText]. now rewrite append_assoc.
    + rewrite decode_chunk_falsy by reflexivity. rewrite (IH st Hd). reflexivity.
Qed.

Lemma decode_chunks_fresh (cs : list (option string)) : forall st,
  detectedLang st = EmptyString ->
  decode_chunks st cs
  = match nonempty_chunks cs with
    | [] => ([], st)
    | c :: ne =>
        let lang := spec_language (spec_first_line c) in
        let buf := fullText st ^^ spec_after_first_newline c in
        (map (fun t => TR.mk lang t None) (buf :: running buf ne),
         {| detectedLang := lang; fullText := buf ^^ concat_all ne |})
    end.
Proof.
  induction cs as [|c cs IH]; intros st Hd.
  - reflexivity.
  - cbn [decode_chunks]. destruct c as [[|a s]|].
    + rewrite decode_chunk_falsy by reflexivity. rewrite (IH st Hd).
      cbn [nonempty_chunks]. now destruct (nonempty_chunks cs).
    + rewrite decode_chunk_first by (reflexivity || assumption).
      rewrite decode_chunks_known by apply spec_language_truthy.
      reflexivity.
    + rewrite decode_chunk_falsy by reflexivity. rewrite (IH st Hd).
      cbn [nonempty_chunks]. now destruct (nonempty_chunks cs).
Qed.

Lemma running_prefix_growing (ne : list string) : forall acc,
  prefix_growing acc (running acc ne).
Proof.
  induction ne as [|c ne IH]; intros acc; simpl; [exact I|].
  split; [apply extends_append | apply IH].
Qed.

Lemma running_length (ne : list string) (acc : string) :
  length (running acc ne) = length ne.
Proof. revert acc. induction ne as [|c ne IH]; intros acc; simpl; auto. Qed.

Lemma running_nth (ne : list string) : forall acc i,
  i < length ne ->
  nth_error (running acc ne) i = Some (acc ^^ concat_all (firstn (S i) ne)).
Proof.
  induction ne as [|c ne IH]; intros acc i Hi; simpl in Hi; [lia|].
  destruct i as [|i].
  - cbn. destruct ne; cbn; now rewrite ?append_empty_r.
  - cbn [running nth_error]. rewrite IH by lia.
    cbn [firstn concat_all]. now rewrite append_assoc.
Qed.

Lemma prefix_growing_nth (l : list string) : forall prev i a b,
  prefix_growing prev l ->
  nth_error l i = Some a -> nth_error l (S i) = Some b -> extends b a.
Proof.
  induction l as [|x l IH]; intros prev i a b Hg Ha Hb.
  - now destruct i.
  - destruct Hg as [_ Hg]. destruct i as [|i].
    + cbn in Ha. injection Ha as ->. destruct l as [|y l]; [discriminate|].
      cbn in Hb. injection Hb as ->. apply Hg.
    + cbn in Ha, Hb. exact (IH x i a b Hg Ha Hb).
Qed.

(** The yields of the generator, by cases on its input. *)
Lemma translateTextStream_yields (text : string) (remote : RemoteCall) :
  yields (translateTextStream text remote)
  = if negb (JS.truthy (JS.trim text)) then []
    else match remote with
         | CallRejects _ => []
         | CallResolves s => fst (decode_chunks decoder_init (chunks s))
         end.
Proof.
  unfold translateTextStream. destruct (negb (JS.truthy (JS.trim text))).
  - reflexivity.
  - destruct remote as [e|s]; cbn [try_body]; [reflexivity|].
    now destruct (ending s).
Qed.

(** ** The coordinator *)

Lemma run_cons (ev : Event) (evs : list Event) (s : AppState) :
  run (ev :: evs) s = run evs (step ev s).
Proof. reflexivity. Qed.

Lemma run_app (evs1 evs2 : list Event) (s : AppState) :
  run (evs1 ++ evs2) s = run evs2 (run evs1 s).
Proof. apply fold_left_app. Qed.

Lemma lookup_update (id : nat) (g g0 : GenPhase) (l : list (nat * GenPhase)) :
  lookup id l = Some g0 -> lookup id (update id g l) = Some g.
Proof.
  induction l as [|[k h] l IH]; simpl; [discriminate|].
  destruct (k =? id) eqn:E; simpl; rewrite E; auto.
Qed.

Lemma last_cons_default {A : Type} (l : list A) (x d : A) :
  last (x :: l) d = last l x.
Proof.
  revert x d. induction l as [|y l IH]; intros x d; [reflexivity|].
  change (last (x :: y :: l) d) with (last (y :: l) d).
  now rewrite !IH.
Qed.

Lemma fst_decode_chunks_cons (st : DecoderState) (c : option string)
  (cs : list (option string)) :
  fst (decode_chunks st (c :: cs))
  = match snd (decode_chunk st c) with
    | Some r => r :: fst (decode_chunks (fst (decode_chunk st c)) cs)
    | None => fst (decode_chunks (fst (decode_chunk st c)) cs)
    end.
Proof.
  cbn [decode_chunks]. destruct (decode_chunk st c) as [st' y].
  cbn [fst snd]. destruct (decode_chunks st' cs) as [ys st'']. now destruct y.
Qed.

Lemma console_error_nil (s : AppState) : console_error [] s = s.
Proof.
  destruct s. unfold console_error, set_app_console. cbn.
  now rewrite app_nil_r.
Qed.

Lemma resume_end (s : AppState) (id : nat) (st : DecoderState) (e : StreamEnd) :
  lookup id (requests s) = Some (AwaitingChunk st [] e) ->
  resume id s
  = setIsTranslating false
      (set_requests (remove id (requests s))
         (console_error
            match e with
            | EndOfStream => []
            | StreamError m => ["Translation error: " ^^ m]
            end s)).
Proof. intros Hl. unfold resume. rewrite Hl. now destruct e. Qed.

Lemma resume_chunk (s : AppState) (id : nat) (st : DecoderState)
  (c : option string) (cs : list (option string)) (e : StreamEnd) :
  lookup id (requests s) = Some (AwaitingChunk st (c :: cs) e) ->
  resume id s
  = set_requests
      (update id (AwaitingChunk (fst (decode_chunk st c)) cs e) (requests s))
      match snd (decode_chunk st c) with
      | Some r => setTranslation id r s
      | None => s
      end.
Proof.
  intros Hl. unfold resume. rewrite Hl. unfold gen_resume. cbn [try_resume].
  destruct (decode_chunk st c) as [st' [r|]]; cbn [fst snd];
    now rewrite console_error_nil.
Qed.

Lemma resume_call (s : AppState) (id : nat) (remote : RemoteCall) :
  lookup id (requests s) = Some (AwaitingCall remote) ->
  resume id s
  = match remote with
    | CallRejects e =>
        setIsTranslating false
          (set_requests (remove id (requests s))
             (console_error ["Translation error: " ^^ e] s))
    | CallResolves r =>
        set_requests
          (update id (AwaitingChunk decoder_init (chunks r) (ending r))
             (requests s)) s
    end.
Proof.
  intros Hl. unfold resume. rewrite Hl.
  destruct remote as [e|r]; cbn; [reflexivity|].
  now rewrite console_error_nil.
Qed.

(** The loop of a request that has reached the stream, resumed until the
    stream has ended. *)
Lemma resume_stream (cs : list (option string)) :
  forall (st : DecoderState) (s : AppState) (e : StreamEnd) (id : nat),
  lookup id (requests s) = Some (AwaitingChunk st cs e) ->
  let s' := run (repeat (EvResume id) (S (length cs))) s in
  let ys := fst (decode_chunks st cs) in
  translation s' = last (map Some ys) (translation s)
  /\ history s' = history s ++ map (HPublish id) ys
  /\ isTranslating s' = false
  /\ app_console s'
     = app_console s
       ++ match e with
          | EndOfStream => []
          | StreamError m => ["Translation error: " ^^ m]
          end.
Proof.
  induction cs as [|c cs IH]; intros st s e id Hl.
  - cbn [length repeat]. rewrite run_cons. cbn [run fold_left step].
    rewrite (resume_end s id st e Hl). cbn. rewrite app_nil_r. auto.
  - cbn zeta.
    change (repeat (EvResume id) (S (length (c :: cs))))
      with (EvResume id :: repeat (EvResume id) (S (length cs))).
    rewrite run_cons. cbn [step].
    rewrite fst_decode_chunks_cons, (resume_chunk s id st c cs e Hl).
    match goal with |- context [run _ ?s1] =>
      assert (H1 : lookup id (requests s1)
                   = Some (AwaitingChunk (fst (decode_chunk st c)) cs e))
        by (cbn; eapply lookup_update; exact Hl);
      destruct (IH _ s1 e id H1) as (Ht & Hh & Hi & Hc)
    end.
    cbn zeta in Ht, Hh, Hi, Hc. rewrite Ht, Hh, Hi, Hc.
    destruct (snd (decode_chunk st c)) as [r|]; cbn -[last].
    + rewrite last_cons_default, <- app_assoc. auto.
    + auto.
Qed.

Lemma lookup_head (id : nat) (g : GenPhase) (l : list (nat * GenPhase)) :
  lookup id ((id, g) :: l) = Some g.
Proof. simpl. now rewrite Nat.eqb_refl. Qed.

Lemma performTranslation_blank (text : string) (remote : RemoteCall)
  (s : AppState) :
  JS.truthy (JS.trim text) = false ->
  performTranslation text remote s
  = setIsTranslating false (setTranslation_null s).
Proof. intros H. unfold performTranslation. now rewrite H. Qed.

Lemma performTranslation_request (text : string) (remote : RemoteCall)
  (s : AppState) :
  JS.truthy (JS.trim text) = true ->
  let s1 := performTranslation text remote s in
  lookup (next_request s) (requests s1) = Some (AwaitingCall remote)
  /\ translation s1 = translation s
  /\ history s1 = history s ++ [HSubmit (next_request s) text]
  /\ app_console s1 = app_console s
  /\ remote_calls s1 = remote_calls s ++ [text].
Proof.
  intros H. unfold performTranslation, gen_start. rewrite H. cbn [negb].
  cbn. destruct (abortControllerRef s); cbn; rewrite Nat.eqb_refl; auto.
Qed.

Lemma translateTextStream_delivered (text : string) (remote : RemoteCall) :
  JS.truthy (JS.trim text) = true ->
  yields (translateTextStream text remote)
  = fst (decode_chunks decoder_init (delivered remote)).
Proof.
  intros H. rewrite translateTextStream_yields, H. now destruct remote.
Qed.

(** A request from its submission to the end of its loop, with no other
    handler changing the state in between. *)
Lemma request_run (s : AppState) (text : string) (remote : RemoteCall) :
  JS.truthy (JS.trim text) = true ->
  let id := next_request s in
  let s' := run (repeat (EvResume id) (resumptions remote))
                (performTranslation text remote s) in
  let ys := yields (translateTextStream text remote) in
  translation s' = last (map Some ys) (translation s)
  /\ history s' = history s ++ HSubmit id text :: map (HPublish id) ys
  /\ isTranslating s' = false
  /\ app_console s'
     = app_console s
       ++ match failure remote with
          | Some e => ["Translation error: " ^^ e]
          | None => []
          end.
Proof.
  intros H. cbn zeta. rewrite (translateTextStream_delivered text remote H).
  destruct (performTranslation_request text remote s H)
    as (Hl & Ht & Hh & Hc & _).
  set (s1 := performTranslation text remote s) in *.
  destruct remote as [e|r].
  - cbn [resumptions repeat delivered decode_chunks fst map failure].
    rewrite run_cons. cbn [run fold_left step].
    rewrite (resume_call s1 _ _ Hl). cbn -[last]. rewrite Ht, Hh, Hc. auto.
  - cbn [resumptions delivered failure].
    change (repeat (EvResume (next_request s)) (2 + length (chunks r)))
      with (EvResume (next_request s)
            :: repeat (EvResume (next_request s)) (S (length (chunks r)))).
    rewrite run_cons. cbn [step]. rewrite (resume_call s1 _ _ Hl).
    match goal with |- context [run _ ?s2] =>
      assert (H2 : lookup (next_request s) (requests s2)
                   = Some (AwaitingChunk decoder_init (chunks r) (ending r)))
        by (cbn; eapply lookup_update; exact Hl);
      destruct (resume_stream (chunks r) decoder_init s2 (ending r) _ H2)
        as (Ht2 & Hh2 & Hi2 & Hc2)
    end.
    cbn zeta in Ht2, Hh2, Hi2, Hc2. rewrite Ht2, Hh2, Hi2, Hc2.
    cbn -[last]. rewrite Ht, Hh, Hc, <- app_assoc.
    repeat split; try reflexivity. now destruct (ending r).
Qed.

(** ** The debouncer *)

Lemma clearTimeout_all (id : positive) (s : AppState) :
  (forall t, In t (timers s) -> debounceTimerRef s = Some (timer_id t)) ->
  debounceTimerRef s = Some id ->
  timers (clearTimeout id s) = [].
Proof.
  intros Hall Hid. unfold clearTimeout. cbn.
  induction (timers s) as [|t ts IH]; [reflexivity|].
  cbn. assert (Ht : timer_id t = id).
  { specialize (Hall t (or_introl eq_refl)). congruence. }
  rewrite Ht, Pos.eqb_refl. cbn. apply IH.
  intros t' Ht'. apply Hall. now right.
Qed.

Lemma timers_performTranslation (text : string) (remote : RemoteCall)
  (s : AppState) :
  timers (performTranslation text remote s) = timers s
  /\ debounceTimerRef (performTranslation text remote s) = debounceTimerRef s
  /\ next_timer (performTranslation text remote s) = next_timer s
  /\ input (performTranslation text remote s) = input s.
Proof.
  unfold performTranslation, gen_start.
  destruct (negb (JS.truthy (JS.trim text))); [cbn; auto|].
  cbn. destruct (abortControllerRef s); cbn; auto.
Qed.

Lemma timers_resume (id : nat) (s : AppState) :
  timers (resume id s) = timers s
  /\ debounceTimerRef (resume id s) = debounceTimerRef s
  /\ next_timer (resume id s) = next_timer s
  /\ input (resume id s) = input s.
Proof.
  unfold resume. destruct (lookup id (requests s)) as [g|]; [|auto].
  destruct (gen_resume g) as [[r k|k| |e] logs]; cbn; auto.
Qed.

Lemma timers_inv_clearTimeout (id : positive) (s : AppState) :
  timers_inv s -> timers_inv (clearTimeout id s).
Proof.
  intros (Hlen & Href & Hlt). unfold timers_inv, clearTimeout. cbn.
  repeat split.
  - pose proof (filter_length_le
      (fun t => negb (Pos.eqb (timer_id t) id)) (timers s)). lia.
  - intros t Ht. apply filter_In in Ht. now apply Href.
  - intros t Ht. apply filter_In in Ht. now apply Hlt.
Qed.

(** What a change of the input leaves behind, when all pending timers are
    the one the ref points to. *)
Lemma setInput_changed (text : string) (s : AppState) :
  (forall t, In t (timers s) -> debounceTimerRef s = Some (timer_id t)) ->
  String.eqb text (input s) = false ->
  timers (setInput text s)
  = (if JS.truthy text
     then [mkTimer (next_timer s) (debounce_delay text) text] else [])
  /\ debounceTimerRef (setInput text s)
     = (if JS.truthy text then Some (next_timer s) else debounceTimerRef s)
  /\ next_timer (setInput text s)
     = (if JS.truthy text then Pos.succ (next_timer s) else next_timer s).
Proof.
  intros Href Hne. unfold setInput. rewrite Hne.
  assert (Hclean : timers (effect_cleanup (set_input text s)) = []).
  { unfold effect_cleanup. cbn [debounceTimerRef set_input].
    destruct (debounceTimerRef s) as [id|] eqn:E.
    - apply clearTimeout_all; cbn;
        [intros t Ht; rewrite E; now apply Href | exact E].
    - cbn. destruct (timers s) as [|t ts]; [reflexivity|].
      specialize (Href t (or_introl eq_refl)). discriminate. }
  assert (Hsame : debounceTimerRef (effect_cleanup (set_input text s))
                  = debounceTimerRef s
                  /\ next_timer (effect_cleanup (set_input text s))
                     = next_timer s
                  /\ input (effect_cleanup (set_input text s)) = text).
  { unfold effect_cleanup. cbn [debounceTimerRef set_input].
    destruct (debounceTimerRef s) eqn:E; cbn; rewrite ?E; auto. }
  destruct Hsame as (Hr & Hn & Hi).
  set (s1 := effect_cleanup (set_input text s)) in *.
  unfold effect_body.
  assert (Hcl : forall id, timers (clearTimeout id s1) = []).
  { intros id. unfold clearTimeout. cbn. now rewrite Hclean. }
  destruct (debounceTimerRef s1) as [id|] eqn:E.
  - cbn [input clearTimeout set_timers]. rewrite Hi.
    destruct (JS.truthy text); cbn; rewrite ?Hclean, ?Hn; cbn; auto.
    rewrite E. auto.
  - rewrite Hi. destruct (JS.truthy text); cbn; rewrite ?Hclean, ?Hn; cbn; auto.
    rewrite E. auto.
Qed.

Lemma timers_inv_step (ev : Event) (s : AppState) :
  timers_inv s -> timers_inv (step ev s).
Proof.
  intros Hinv. destruct ev as [text|id remote|req]; cbn [step].
  - destruct (String.eqb text (input s)) eqn:Hne.
    + unfold setInput. now rewrite Hne.
    + destruct Hinv as (Hlen & Href & Hlt).
      destruct (setInput_changed text s Href Hne) as (Ht & Hr & Hn).
      unfold timers_inv. rewrite Ht, Hr, Hn.
      destruct (JS.truthy text); cbn; repeat split; try lia;
        intros t Hin; try contradiction;
        destruct Hin as [<-|[]]; cbn; reflexivity || lia.
  - unfold fire.
    destruct (find _ (timers s)) as [t|]; [|exact Hinv].
    destruct (timers_performTranslation (timer_text t) remote (clearTimeout id s))
      as (Ht & Hr & Hn & _).
    pose proof (timers_inv_clearTimeout id s Hinv) as Hc.
    unfold timers_inv in *. now rewrite Ht, Hr, Hn.
  - destruct (timers_resume req s) as (Ht & Hr & Hn & _).
    unfold timers_inv in *. now rewrite Ht, Hr, Hn.
Qed.

Lemma timers_inv_reachable (s : AppState) : reachable s -> timers_inv s.
Proof.
  intros [evs ->]. unfold run.
  assert (H0 : timers_inv app_init).
  { unfold timers_inv. cbn. repeat split; [lia | intros t [] | intros t []]. }
  revert H0. generalize app_init.
  induction evs as [|ev evs IH]; intros s0 H0; [exact H0|].
  cbn. apply IH. now apply timers_inv_step.
Qed.

Lemma publishes_app (h1 h2 : list HistEvent) :
  publishes (h1 ++ h2) = publishes h1 ++ publishes h2.
Proof.
  induction h1 as [|[req text|req r|] h1 IH]; cbn; now rewrite ?IH.
Qed.

(** * The claims of the specification *)

(** ** The stream decoder *)

(** C2 (as amended): for a stream that ends normally after at least one
    non-empty chunk, the decoder emits exactly one result per non-empty
    chunk and none when the stream ends; no result carries an [isComplete]
    property; the result number [i] carries the buffer accumulated over the
    first [i+1] non-empty chunks, so the last result carries the full
    buffer; the generator then returns with nothing written to the
    console. *)
Theorem translateTextStream_one_result_per_chunk
  (text : string) (s : RemoteStream) :
  JS.truthy (JS.trim text) = true ->
  ending s = EndOfStream ->
  nonempty_chunks (chunks s) <> [] ->
  let g := translateTextStream text (CallResolves s) in
  let ne := nonempty_chunks (chunks s) in
  length (yields g) = length ne
  /\ Forall (fun r => TR.isComplete r = None) (yields g)
  /\ (forall i, i < length ne ->
        nth_error (map TR.translation (yields g)) i
        = Some (spec_buffer (firstn (S i) ne)))
  /\ (exists r, nth_error (yields g) (length ne - 1) = Some r
                /\ TR.translation r = spec_buffer ne)
  /\ outcome g = Normal
  /\ console g = [].
Proof.
  intros Ht He Hne. cbn zeta.
  assert (Hnth : forall i, i < length (nonempty_chunks (chunks s)) ->
            nth_error (map TR.translation
                         (yields (translateTextStream text (CallResolves s)))) i
            = Some (spec_buffer (firstn (S i) (nonempty_chunks (chunks s))))).
  { rewrite (translateTextStream_delivered _ _ Ht). cbn [delivered].
    rewrite decode_chunks_fresh by reflexivity.
    destruct (nonempty_chunks (chunks s)) as [|c ne]; [contradiction|].
    cbn [fst fullText decoder_init String.append].
    rewrite map_map. cbn [TR.translation]. rewrite map_id.
    intros [|i] Hi.
    - cbn. now rewrite append_empty_r.
    - cbn [nth_error]. cbn [length] in Hi. rewrite running_nth by lia.
      reflexivity. }
  assert (Hlen : length (yields (translateTextStream text (CallResolves s)))
                 = length (nonempty_chunks (chunks s))).
  { rewrite (translateTextStream_delivered _ _ Ht). cbn [delivered].
    rewrite decode_chunks_fresh by reflexivity.
    destruct (nonempty_chunks (chunks s)) as [|c ne]; [contradiction|].
    cbn [fst]. rewrite length_map. cbn [length]. now rewrite running_length. }
  repeat split.
  - exact Hlen.
  - rewrite (translateTextStream_delivered _ _ Ht). cbn [delivered].
    rewrite decode_chunks_fresh by reflexivity.
    destruct (nonempty_chunks (chunks s)) as [|c ne]; [contradiction|].
    cbn [fst]. apply Forall_forall. intros r Hr.
    apply in_map_iff in Hr as (t & <- & _). reflexivity.
  - exact Hnth.
  - destruct (nonempty_chunks (chunks s)) as [|c ne] eqn:E; [contradiction|].
    specialize (Hnth (length (c :: ne) - 1)).
    rewrite nth_error_map in Hnth.
    destruct (nth_error _ (length (c :: ne) - 1)) as [r|] eqn:Er.
    + exists r. split; [reflexivity|].
      cbn [option_map] in Hnth.
      assert (Hi : length (c :: ne) - 1 < length (c :: ne)) by (cbn; lia).
      specialize (Hnth Hi). injection Hnth as ->.
      rewrite ?Nat.sub_0_r, firstn_all. reflexivity.
    + cbn [option_map] in Hnth.
      assert (Hi : length (c :: ne) - 1 < length (c :: ne)) by (cbn; lia).
      specialize (Hnth Hi). discriminate.
  - unfold translateTextStream. rewrite Ht. cbn [negb try_body]. now rewrite He.
  - unfold translateTextStream. rewrite Ht. cbn [negb try_body]. now rewrite He.
Qed.

Lemma translateTextStream_one_result_per_chunk_witness :
  length (yields (translateTextStream "hello" (CallResolves bonjour_stream))) = 3.
Proof.
  refine (proj1 (translateTextStream_one_result_per_chunk
                   "hello" bonjour_stream _ _ _));
    [reflexivity | reflexivity | discriminate].
Defined.

(** C2 (as stated) fails on the scenario stream: the decoder emits no
    final result marked complete. *)
Lemma translateTextStream_no_final_result :
  ~ (exists intermediate final,
       yields (translateTextStream "hello" (CallResolves bonjour_stream))
       = intermediate ++ [final]
       /\ Forall (fun r => TR.isComplete r = Some false) intermediate
       /\ TR.isComplete final = Some true
       /\ TR.translation final = "Bonjour").
Proof.
  intros (pre & fin & E & _ & Hc & _).
  assert (Hall : Forall (fun r => TR.isComplete r = None)
                   (yields (translateTextStream "hello"
                              (CallResolves bonjour_stream))))
    by (vm_compute; repeat constructor).
  rewrite E in Hall. apply Forall_app in Hall as [_ Hfin].
  inversion Hfin as [|x l Hx _]; subst. rewrite Hx in Hc. discriminate.
Qed.

(** C3: the translation texts emitted for one request grow by prefix
    extension: each emission extends the one before it. *)
Theorem translateTextStream_prefix_growing
  (text : string) (remote : RemoteCall) (i : nat) (a b : string) :
  nth_error (map TR.translation (yields (translateTextStream text remote))) i
  = Some a ->
  nth_error (map TR.translation (yields (translateTextStream text remote))) (S i)
  = Some b ->
  extends b a.
Proof.
  rewrite translateTextStream_yields.
  destruct (negb (JS.truthy (JS.trim text))); [now destruct i|].
  destruct remote as [e|s]; [now destruct i|].
  rewrite decode_chunks_fresh by reflexivity.
  destruct (nonempty_chunks (chunks s)) as [|c ne]; [now destruct i|].
  cbn [fst fullText decoder_init String.append].
  rewrite map_map. cbn [TR.translation]. rewrite map_id.
  apply (prefix_growing_nth _ EmptyString).
  split; [now exists (spec_after_first_newline c) | apply running_prefix_growing].
Qed.

Lemma translateTextStream_prefix_growing_witness : extends "Bonjour" "Bon".
Proof.
  exact (translateTextStream_prefix_growing "hello"
           (CallResolves bonjour_stream) 1 "Bon" "Bonjour" eq_refl eq_refl).
Defined.

(** C4: the detected language is read off the first line of the first
    non-empty chunk ([zh] when its lower-cased content contains zh, else
    [en]); every emission of the stream carries that language; the first
    emission carries the text after the first line feed of that chunk, the
    rest of its first line being dropped. *)
Theorem translateTextStream_language
  (text : string) (s : RemoteStream) (c : string) (rest : list string) :
  JS.truthy (JS.trim text) = true ->
  nonempty_chunks (chunks s) = c :: rest ->
  let ys := yields (translateTextStream text (CallResolves s)) in
  Forall (fun r => TR.detectedLanguage r = spec_language (spec_first_line c)) ys
  /\ (exists r0 ys', ys = r0 :: ys'
                     /\ TR.translation r0 = spec_after_first_newline c)
  /\ snd (decode_chunks decoder_init (chunks s))
     = {| detectedLang := spec_language (spec_first_line c);
          fullText := spec_buffer (c :: rest) |}.
Proof.
  intros Ht Hne. cbn zeta.
  rewrite (translateTextStream_delivered _ _ Ht). cbn [delivered].
  rewrite decode_chunks_fresh by reflexivity. rewrite Hne.
  cbn [fst snd fullText decoder_init String.append].
  repeat split.
  - apply Forall_forall. intros r Hr.
    apply in_map_iff in Hr as (t & <- & _). reflexivity.
  - cbn [map]. eexists. eexists. split; reflexivity.
Qed.

Lemma translateTextStream_language_witness :
  Forall (fun r => TR.detectedLanguage r = "en")
         (yields (translateTextStream "hello" (CallResolves bonjour_stream))).
Proof.
  exact (proj1 (translateTextStream_language "hello" bonjour_stream
                  ("en" ^^ String JS.LF EmptyString) ["Bon"; "jour"]
                  eq_refl eq_refl)).
Defined.

(** ** The request coordinator *)

(** C1 (violated by the code): in the run [race_events] the first request
    is superseded by a second one, its controller is aborted, and its late
    result is still published, overwriting the result of the second
    request.  The loop of [performTranslation] never consults the abort
    signal before [setTranslation]. *)
Theorem performTranslation_publishes_stale_result :
  let s := run race_events app_init in
  history s
  = [HClear;
     HSubmit 0 "hello"; HPublish 0 (en_result "Bon");
     HSubmit 1 "hello world"; HPublish 1 (en_result "Bonjour le monde");
     HPublish 0 (en_result "Bonjour")]
  /\ stale_publishes None (history s) = [(0, en_result "Bonjour")]
  /\ translation s = Some (en_result "Bonjour")
  /\ aborted s = [0]
  /\ abortControllerRef s = Some 1.
Proof. vm_compute. repeat split. Qed.

(** C5: for a text that is empty or made of white space only,
    [performTranslation] sets the published translation to null and
    [isTranslating] to false and returns without a call to the service and
    without leaving a request in flight; the generator itself yields nothing
    and calls nothing for such a text. *)
Theorem performTranslation_blank_text
  (text : string) (remote : RemoteCall) (s : AppState) :
  spec_blank text = true ->
  let s' := performTranslation text remote s in
  translation s' = None
  /\ isTranslating s' = false
  /\ remote_calls s' = remote_calls s
  /\ requests s' = requests s
  /\ yields (translateTextStream text remote) = []
  /\ remote_requests (translateTextStream text remote) = [].
Proof.
  intros Hb. apply trim_blank in Hb. cbn zeta.
  rewrite performTranslation_blank by now rewrite Hb.
  unfold translateTextStream. rewrite Hb. cbn. auto 10.
Qed.

Lemma performTranslation_blank_text_witness :
  translation
    (performTranslation "  " (CallResolves bonjour_stream)
       (run bonjour_events app_init))
  = None.
Proof.
  exact (proj1 (performTranslation_blank_text "  " (CallResolves bonjour_stream)
                  (run bonjour_events app_init) eq_refl)).
Defined.

(** C7: when the call to the service rejects or its stream fails, the
    generator ends normally, having yielded exactly the results of the
    chunks delivered before the failure; the coordinator publishes those
    and nothing else, so that the last published result stays in place;
    [isTranslating] is reset; the only trace is the line the generator
    writes to the console: the handler of the coordinator is not entered. *)
Theorem translation_failure_absorbed
  (s : AppState) (text : string) (remote : RemoteCall) (e : string) :
  JS.truthy (JS.trim text) = true ->
  failure remote = Some e ->
  let g := translateTextStream text remote in
  let req := next_request s in
  let s' := run (repeat (EvResume req) (resumptions remote))
                (performTranslation text remote s) in
  outcome g = Normal
  /\ yields g = fst (decode_chunks decoder_init (delivered remote))
  /\ history s' = history s ++ HSubmit req text :: map (HPublish req) (yields g)
  /\ translation s' = last (map Some (yields g)) (translation s)
  /\ isTranslating s' = false
  /\ app_console s' = app_console s ++ ["Translation error: " ^^ e].
Proof.
  intros Ht Hf. cbn zeta.
  destruct (request_run s text remote Ht) as (H1 & H2 & H3 & H4).
  cbn zeta in H1, H2, H3, H4. rewrite Hf in H4.
  repeat split; auto.
  - unfold translateTextStream. rewrite Ht. cbn [negb].
    destruct (try_body remote) as [ys [|m]]; reflexivity.
  - now apply translateTextStream_delivered.
Qed.

Lemma translation_failure_absorbed_witness :
  translation
    (run (repeat (EvResume 1) 1)
       (performTranslation "hello!" (CallRejects "offline")
          (run bonjour_events app_init)))
  = Some (en_result "Bonjour").
Proof.
  exact (proj1 (proj2 (proj2 (proj2
           (translation_failure_absorbed (run bonjour_events app_init)
              "hello!" (CallRejects "offline") "offline" eq_refl eq_refl))))).
Defined.

(** C9 (as amended): when the stream ends normally before any non-empty
    chunk, the decoder emits no result and the coordinator publishes none:
    the published translation is what it was before the request, and
    [isTranslating] is reset.  Empty chunks are skipped: they change
    neither the locals of the decoder nor its output. *)
Theorem silent_stream_keeps_translation
  (s : AppState) (text : string) (r : RemoteStream) :
  JS.truthy (JS.trim text) = true ->
  nonempty_chunks (chunks r) = [] ->
  ending r = EndOfStream ->
  let req := next_request s in
  let s' := run (repeat (EvResume req) (resumptions (CallResolves r)))
                (performTranslation text (CallResolves r) s) in
  yields (translateTextStream text (CallResolves r)) = []
  /\ translation s' = translation s
  /\ publishes (history s') = publishes (history s)
  /\ isTranslating s' = false
  /\ app_console s' = app_console s
  /\ (forall st c, JS.truthy_opt c = false -> decode_chunk st c = (st, None)).
Proof.
  intros Ht Hne He. cbn zeta.
  assert (Hy : yields (translateTextStream text (CallResolves r)) = []).
  { rewrite (translateTextStream_delivered _ _ Ht). cbn [delivered].
    rewrite decode_chunks_fresh by reflexivity. now rewrite Hne. }
  destruct (request_run s text (CallResolves r) Ht) as (H1 & H2 & H3 & H4).
  cbn zeta in H1, H2, H3, H4. rewrite Hy in H1, H2.
  cbn [failure] in H4. rewrite He in H4. rewrite app_nil_r in H4.
  repeat split; auto.
  - rewrite H2, publishes_app. cbn. apply app_nil_r.
  - intros st c Hc. now apply decode_chunk_falsy.
Qed.

Lemma silent_stream_keeps_translation_witness :
  translation
    (run (repeat (EvResume 1) 4)
       (performTranslation "hello!" (CallResolves silent_stream)
          (run bonjour_events app_init)))
  = Some (en_result "Bonjour").
Proof.
  exact (proj1 (proj2
           (silent_stream_keeps_translation (run bonjour_events app_init)
              "hello!" silent_stream eq_refl eq_refl eq_refl))).
Defined.

(** C9 (as stated) fails: after a result was published, a request whose
    stream ends without a non-empty chunk does not bring the published
    state back to null. *)
Lemma silent_stream_does_not_clear :
  ~ (yields (translateTextStream "hello!" (CallResolves silent_stream)) = []
     /\ translation (run silent_events app_init) = None).
Proof. intros [_ H]. vm_compute in H. discriminate H. Qed.

(** C8 (as amended): typing [hello] schedules the request after 400 ms;
    with the chunks [en] and a line feed, [Bon], [jour] the results
    published are, in order, the language [en] with the empty text, with
    [Bon] and with [Bonjour]; none carries [isComplete]; no other result is
    published, and the loop has ended. *)
Theorem bonjour_scenario :
  debounce_delay "hello" = 400
  /\ timers (setInput "hello" app_init) = [mkTimer 1 400 "hello"]
  /\ publishes (history (run bonjour_events app_init))
     = [en_result EmptyString; en_result "Bon"; en_result "Bonjour"]
  /\ translation (run bonjour_events app_init) = Some (en_result "Bonjour")
  /\ requests (run bonjour_events app_init) = []
  /\ isTranslating (run bonjour_events app_init) = false.
Proof. vm_compute. repeat split. Qed.

(** C8 (as stated) fails: the results published are not the language [en]
    with [Bon], then with [Bonjour], then a final one marked complete. *)
Lemma bonjour_scenario_as_stated_fails :
  ~ (exists r1 r2 r3,
       publishes (history (run bonjour_events app_init)) = [r1; r2; r3]
       /\ TR.translation r1 = "Bon"
       /\ TR.translation r2 = "Bonjour"
       /\ TR.translation r3 = "Bonjour"
       /\ TR.isComplete r3 = Some true).
Proof.
  intros (r1 & r2 & r3 & E & H1 & _). vm_compute in E.
  injection E as <- _ _. discriminate H1.
Qed.

(** ** The debouncer *)

(** C6: in every state the component can reach at most one debounce timer
    is pending; a change of the input to a non-empty text leaves exactly
    one pending timer, a new one, set for that text with a delay of 200 ms
    when the text has fewer than 5 code units and 400 ms otherwise, the
    timers pending before the change having been cleared; when that timer
    fires, [performTranslation] is called with that text; a change to the
    empty text leaves no timer. *)
Theorem debounce_one_timer (s : AppState) (text : string) :
  reachable s ->
  text <> input s ->
  let s' := setInput text s in
  length (timers s) <= 1
  /\ timers s'
     = (if JS.truthy text
        then [mkTimer (next_timer s) (debounce_delay text) text] else [])
  /\ (forall t, In t (timers s) -> timer_id t <> next_timer s)
  /\ (JS.truthy text = true -> debounceTimerRef s' = Some (next_timer s))
  /\ (JS.truthy text = true ->
      forall remote,
        fire (next_timer s) remote s'
        = performTranslation text remote (clearTimeout (next_timer s) s'))
  /\ (String.length text < 5 -> debounce_delay text = 200)
  /\ (5 <= String.length text -> debounce_delay text = 400).
Proof.
  intros Hr Hne. cbn zeta.
  destruct (timers_inv_reachable s Hr) as (Hlen & Href & Hlt).
  apply String.eqb_neq in Hne.
  destruct (setInput_changed text s Href Hne) as (Ht & Hd & _).
  repeat split.
  - exact Hlen.
  - exact Ht.
  - intros t Hin E. specialize (Hlt t Hin). rewrite E in Hlt.
    now apply Pos.lt_irrefl in Hlt.
  - intros Hy. now rewrite Hd, Hy.
  - intros Hy remote. unfold fire. rewrite Ht, Hy.
    cbn [find timer_id timer_text]. now rewrite Pos.eqb_refl.
  - intros H. unfold debounce_delay.
    now destruct (Nat.ltb_spec (String.length text) 5); [|lia].
  - intros H. unfold debounce_delay.
    now destruct (Nat.ltb_spec (String.length text) 5); [lia|].
Qed.

Lemma debounce_one_timer_witness :
  timers (setInput "hello" (run [EvSetInput "hell"] app_init))
  = [mkTimer 2 400 "hello"].
Proof.
  refine (proj1 (proj2
            (debounce_one_timer (run [EvSetInput "hell"] app_init) "hello"
               _ _)));
    [exists [EvSetInput "hell"]; reflexivity | discriminate].
Defined.

(** ** Speech output *)

(** C10: [speak] called with the empty text returns at once and changes
    nothing: both speaking flags, the calls made to the remote synthesis,
    the utterances handed to the local synthesis and the audio element are
    as before. *)
Theorem speak_empty_text
  (lang : string) (isSource : bool) (tts : TtsResponse) (s : SpeechState) :
  speak EmptyString lang isSource tts s = s
  /\ isSpeakingSource (speak EmptyString lang isSource tts s)
     = isSpeakingSource s
  /\ isSpeakingTranslation (speak EmptyString lang isSource tts s)
     = isSpeakingTranslation s
  /\ tts_calls (speak EmptyString lang isSource tts s) = tts_calls s
  /\ utterances (speak EmptyString lang isSource tts s) = utterances s.
Proof. repeat split. Qed.

(** * Further properties of the code *)

(** ** What one event does to the coordinator *)

Lemma setInput_transition (text : string) (s : AppState) :
  transition s (setInput text s).
Proof.
  unfold setInput. destruct (String.eqb text (input s)).
  - now apply T_same.
  - unfold effect_body, effect_cleanup. cbn [debounceTimerRef set_input].
    destruct (debounceTimerRef s) as [id|] eqn:E; cbn; rewrite ?E; cbn;
      destruct (JS.truthy text); cbn;
      solve [now apply T_same | now apply T_clear].
Qed.

Lemma fire_transition (id : positive) (remote : RemoteCall) (s : AppState) :
  transition s (fire id remote s).
Proof.
  unfold fire. destruct (find _ (timers s)) as [t|]; [|now apply T_same].
  unfold performTranslation, gen_start.
  destruct (JS.truthy (JS.trim (timer_text t))) eqn:Ht; cbn [negb].
  - cbn. destruct (abortControllerRef s) as [c|] eqn:E; cbn;
      apply (T_submit _ _ (timer_text t) remote); cbn; rewrite ?E; auto.
  - now apply T_clear.
Qed.

Lemma decode_chunk_none (st st' : DecoderState) (c : option string) :
  decode_chunk st c = (st', None) -> st' = st.
Proof.
  unfold decode_chunk. destruct c as [ct|]; [|congruence].
  destruct (negb (JS.truthy ct)); [congruence|].
  destruct (negb (JS.truthy (detectedLang st))); discriminate.
Qed.

Lemma resume_transition (id : nat) (s : AppState) :
  transition s (resume id s).
Proof.
  destruct (lookup id (requests s)) as [g|] eqn:Hl.
  2:{ unfold resume. rewrite Hl. now apply T_same. }
  destruct g as [[e|r]|st [|c cs] e].
  - rewrite (resume_call s id _ Hl). now apply (T_finished _ _ id).
  - rewrite (resume_call s id _ Hl). now apply (T_resolved _ _ id r).
  - rewrite (resume_end s id st e Hl). now apply (T_finished _ _ id).
  - rewrite (resume_chunk s id st c cs e Hl).
    destruct (decode_chunk st c) as [st' [r|]] eqn:Hd; cbn [fst snd].
    + now apply (T_published _ _ id st st' c cs e r).
    + apply decode_chunk_none in Hd as Hst. subst st'.
      now apply (T_skipped _ _ id st c cs e).
Qed.

Lemma step_transition (ev : Event) (s : AppState) : transition s (step ev s).
Proof.
  destruct ev; cbn [step];
    [apply setInput_transition | apply fire_transition | apply resume_transition].
Qed.

(** Induction over the states the component can reach. *)
Lemma reachable_induction (P : AppState -> Prop) :
  P app_init ->
  (forall ev s, reachable s -> P s -> P (step ev s)) ->
  forall s, reachable s -> P s.
Proof.
  intros H0 Hstep s [evs ->].
  induction evs as [|ev evs IH] using rev_ind; [exact H0|].
  rewrite run_app. cbn [run fold_left].
  apply Hstep; [now exists evs | exact IH].
Qed.

Lemma reachable_step (ev : Event) (s : AppState) :
  reachable s -> reachable (step ev s).
Proof.
  intros [evs ->]. exists (evs ++ [ev]). now rewrite run_app.
Qed.

Lemma reachable_run (evs : list Event) (s : AppState) :
  reachable s -> reachable (run evs s).
Proof.
  revert s. induction evs as [|ev evs IH]; intros s Hs; [exact Hs|].
  rewrite run_cons. apply IH. now apply reachable_step.
Qed.

(** ** Calls of the service *)

Lemma submitted_app (h1 h2 : list HistEvent) :
  submitted (h1 ++ h2) = submitted h1 ++ submitted h2.
Proof.
  induction h1 as [|[req text|req r|] h1 IH]; cbn; now rewrite ?IH.
Qed.

Lemma calls_inv_transition (s s' : AppState) :
  transition s s' -> calls_inv s -> calls_inv s'.
Proof.
  intros T (Hc & Hn & Hb & Ha & Hab). unfold calls_inv.
  destruct T as [Hh Ht Hr Hq Hrc Hac Had | Hh Ht Hr Hq Hrc Hac Had
                | text remote Hnb Hh Ht Hr Hq Hrc Hac Had
                | id r Hl Hh Ht Hr Hq Hrc Hac Had
                | id Hh Ht Hr Hq Hrc Hac Had
                | id st c cs e Hl Hd Hh Ht Hr Hq Hrc Hac Had
                | id st st' c cs e r Hl Hd Hh Ht Hr Hq Hrc Hac Had];
    rewrite Hh, Hq, Hrc, Hac, Had; rewrite ?submitted_app; cbn [submitted];
    rewrite ?app_nil_r; auto.
  - repeat split.
    + now rewrite Hc.
    + rewrite length_app. cbn. lia.
    + apply Forall_app. split; [exact Hb | now constructor].
    + cbn [pred]. rewrite Ha, Hab.
      destruct (next_request s) as [|n]; [reflexivity|].
      cbn [pred]. now rewrite seq_S, rev_app_distr.
Qed.

Lemma calls_inv_reachable (s : AppState) : reachable s -> calls_inv s.
Proof.
  apply reachable_induction.
  - unfold calls_inv. cbn. repeat split; auto.
  - intros ev s0 _ H. exact (calls_inv_transition _ _ (step_transition ev s0) H).
Qed.

(** ** What a request publishes, under any interleaving *)

Lemma published_by_app (id : nat) (h1 h2 : list HistEvent) :
  published_by id (h1 ++ h2) = published_by id h1 ++ published_by id h2.
Proof.
  induction h1 as [|[req text|req r|] h1 IH]; cbn; rewrite ?IH; auto.
  now destruct (req =? id).
Qed.

Lemma lookup_update_eq (id : nat) (g : GenPhase) (l : list (nat * GenPhase)) :
  lookup id (update id g l)
  = match lookup id l with Some _ => Some g | None => None end.
Proof.
  induction l as [|[k h] l IH]; [reflexivity|].
  cbn. destruct (k =? id) eqn:E; cbn; rewrite E; auto.
Qed.

Lemma lookup_update_ne (id j : nat) (g : GenPhase) (l : list (nat * GenPhase)) :
  j <> id -> lookup j (update id g l) = lookup j l.
Proof.
  intros Hne. induction l as [|[k h] l IH]; [reflexivity|].
  cbn. destruct (k =? id) eqn:E; cbn.
  - apply Nat.eqb_eq in E. subst k.
    now destruct (Nat.eqb_spec id j); [congruence|].
  - now rewrite IH.
Qed.

Lemma lookup_remove_eq (id : nat) (l : list (nat * GenPhase)) :
  lookup id (remove id l) = None.
Proof.
  unfold remove. induction l as [|[k h] l IH]; [reflexivity|].
  cbn. destruct (k =? id) eqn:E; cbn; [exact IH|]. now rewrite E.
Qed.

Lemma lookup_remove_ne (id j : nat) (l : list (nat * GenPhase)) :
  j <> id -> lookup j (remove id l) = lookup j l.
Proof.
  intros Hne. unfold remove. induction l as [|[k h] l IH]; [reflexivity|].
  cbn. destruct (k =? id) eqn:E; cbn.
  - apply Nat.eqb_eq in E. subst k.
    now destruct (Nat.eqb_spec id j); [congruence|].
  - now rewrite IH.
Qed.

Lemma prefix_growing_snoc (l : list string) : forall (p x : string),
  prefix_growing p l -> extends x (last l p) -> prefix_growing p (l ++ [x]).
Proof.
  induction l as [|y l IH]; intros p x Hg Hx.
  - cbn in *. auto.
  - destruct Hg as [Hy Hg]. cbn [app prefix_growing]. split; [exact Hy|].
    apply IH; [exact Hg|]. now rewrite last_cons_default in Hx.
Qed.

Lemma known_language_truthy (l : string) :
  known_language l -> JS.truthy l = true.
Proof. now intros [-> | ->]. Qed.

Lemma spec_language_known (line : string) : known_language (spec_language line).
Proof.
  unfold spec_language, known_language.
  destruct (JS.includes _ _); auto.
Qed.

(** What a chunk that yields does to the locals. *)
Lemma decode_chunk_some (st st' : DecoderState) (c : option string)
  (r : TranslationResult) :
  decode_chunk st c = (st', Some r) ->
  TR.translation r = fullText st'
  /\ TR.detectedLanguage r = detectedLang st'
  /\ TR.isComplete r = None
  /\ extends (fullText st') (fullText st)
  /\ (detectedLang st = EmptyString -> known_language (detectedLang st'))
  /\ (JS.truthy (detectedLang st) = true -> detectedLang st' = detectedLang st).
Proof.
  destruct c as [[|a ct]|]; try (cbn; discriminate).
  destruct (JS.truthy (detectedLang st)) eqn:Hd.
  - rewrite decode_chunk_next by (reflexivity || assumption).
    intros H. injection H as <- <-. cbn.
    repeat split; auto using extends_append.
    intros E. rewrite E in Hd. discriminate.
  - apply truthy_false in Hd as Hd'.
    rewrite decode_chunk_first by (reflexivity || assumption).
    intros H. injection H as <- <-. cbn.
    repeat split; auto using extends_append, spec_language_known.
    discriminate.
Qed.

Lemma well_published_nil : well_published [].
Proof. repeat split; cbn; auto. intros ? ? []. Qed.

Lemma well_published_snoc (rs : list TranslationResult) (r : TranslationResult) :
  well_published rs ->
  extends (TR.translation r) (last (map TR.translation rs) EmptyString) ->
  Forall (fun r' => TR.detectedLanguage r' = TR.detectedLanguage r) rs ->
  known_language (TR.detectedLanguage r) ->
  TR.isComplete r = None ->
  well_published (rs ++ [r]).
Proof.
  intros (Hg & Hs & Hk) He Hl Hkr Hc. repeat split.
  - rewrite map_app. now apply prefix_growing_snoc.
  - rewrite Forall_forall in Hl. intros r1 r2 H1 H2.
    apply in_app_iff in H1, H2.
    destruct H1 as [H1|[<-|[]]], H2 as [H2|[<-|[]]]; auto.
    + symmetry. auto.
  - apply Forall_app. split; [exact Hk|].
    constructor; [split; assumption | constructor].
Qed.

Ltac split_stream_inv :=
  split; [intros j g Hj | split; [intros j Hj | split; [intros j | intros r0 Hr0]]].

Lemma stream_inv_transition (s s' : AppState) :
  transition s s' -> stream_inv s -> stream_inv s'.
Proof.
  intros T (Hreq & Hnew & Hwp & Htr). unfold stream_inv.
  destruct T as [Hh Ht Hr Hq _ _ _ | Hh Ht Hr Hq _ _ _
                | text remote Hnb Hh Ht Hr Hq _ _ _
                | id r Hl Hh Ht Hr Hq _ _ _
                | id Hh Ht Hr Hq _ _ _
                | id st c cs e Hl Hd Hh Ht Hr Hq _ _ _
                | id st st' c cs e r Hl Hd Hh Ht Hr Hq _ _ _];
    rewrite Hh, Ht, Hr, Hq.
  - auto.
  - split_stream_inv; rewrite ?published_by_app, ?app_nil_r; auto.
    + unfold request_inv. rewrite published_by_app, app_nil_r.
      now apply Hreq.
    + discriminate.
  - split_stream_inv; rewrite ?published_by_app, ?app_nil_r; auto.
    + unfold request_inv. rewrite published_by_app, app_nil_r.
      cbn [lookup] in Hj. destruct (next_request s =? j) eqn:E.
      * apply Nat.eqb_eq in E. injection Hj as <-. split; [lia|].
        apply Hnew. lia.
      * destruct (Hreq j g Hj). split; [lia | assumption].
    + apply Hnew. lia.
    + destruct (Htr r0 Hr0) as [id Hin]. exists id.
      now rewrite published_by_app, app_nil_r.
  - split_stream_inv; auto.
    destruct (Nat.eq_dec j id) as [->|Hne].
    + rewrite lookup_update_eq, Hl in Hj. injection Hj as <-.
      destruct (Hreq id _ Hl) as [Hlt Hri]. split; [exact Hlt|].
      left. split; [reflexivity | exact Hri].
    + rewrite lookup_update_ne in Hj by exact Hne. now apply Hreq.
  - split_stream_inv; auto.
    destruct (Nat.eq_dec j id) as [->|Hne].
    + now rewrite lookup_remove_eq in Hj.
    + rewrite lookup_remove_ne in Hj by exact Hne. now apply Hreq.
  - split_stream_inv; auto.
    destruct (Nat.eq_dec j id) as [->|Hne].
    + rewrite lookup_update_eq, Hl in Hj. injection Hj as <-.
      exact (Hreq id _ Hl).
    + rewrite lookup_update_ne in Hj by exact Hne. now apply Hreq.
  - destruct (Hreq id _ Hl) as [Hlt Hri].
    destruct (decode_chunk_some _ _ _ _ Hd) as (Et & El & Ec & Ex & Hfresh & Hkeep).
    assert (Hpub : forall j, published_by j (history s ++ [HPublish id r])
                   = published_by j (history s)
                     ++ (if id =? j then [r] else [])).
    { intros j. rewrite published_by_app. cbn. now destruct (id =? j). }
    assert (Hnew_inv :
      known_language (detectedLang st')
      /\ Forall (fun r' => TR.detectedLanguage r' = detectedLang st')
                (published_by id (history s))
      /\ extends (fullText st')
                 (last (map TR.translation (published_by id (history s)))
                       EmptyString)).
    { destruct Hri as [[-> Hnil] | (Hk & Hf & Hlast)].
      - rewrite Hnil. cbn. split; [auto | split; [constructor|]].
        now exists (fullText st').
      - rewrite (Hkeep (known_language_truthy _ Hk)), Hlast. auto. }
    destruct Hnew_inv as (Hk' & Hf' & Hx').
    split_stream_inv.
    + destruct (Nat.eq_dec j id) as [->|Hne].
      * rewrite lookup_update_eq, Hl in Hj. injection Hj as <-.
        split; [exact Hlt|].
        right. rewrite Hpub, Nat.eqb_refl. repeat split.
        -- exact Hk'.
        -- apply Forall_app. split; [exact Hf'|].
           constructor; [exact El | constructor].
        -- rewrite map_app. cbn [map]. now rewrite last_last.
      * rewrite lookup_update_ne in Hj by exact Hne.
        unfold request_inv. rewrite Hpub.
        destruct (Nat.eqb_spec id j) as [E|_]; [congruence|].
        rewrite app_nil_r. now apply Hreq.
    + rewrite Hpub.
      destruct (Nat.eqb_spec id j) as [E|_]; [lia|].
      rewrite app_nil_r. auto.
    + rewrite Hpub.
      destruct (Nat.eqb_spec id j) as [<-|_]; [|rewrite app_nil_r; auto].
      apply well_published_snoc; auto.
      * now rewrite Et.
      * now rewrite El.
      * now rewrite El.
    + injection Hr0 as <-. exists id.
      rewrite Hpub, Nat.eqb_refl. apply in_app_iff. right. now left.
Qed.

Lemma stream_inv_reachable (s : AppState) : reachable s -> stream_inv s.
Proof.
  apply reachable_induction.
  - unfold stream_inv. cbn. split_stream_inv; try discriminate; auto.
    apply well_published_nil.
  - intros ev s0 _ H. exact (stream_inv_transition _ _ (step_transition ev s0) H).
Qed.

(** ** The debouncer and the coordinator together *)

Lemma setInput_frame (text : string) (s : AppState) :
  remote_calls (setInput text s) = remote_calls s
  /\ requests (setInput text s) = requests s
  /\ next_request (setInput text s) = next_request s
  /\ isTranslating (setInput text s) = isTranslating s
  /\ input (setInput text s) = text.
Proof.
  unfold setInput. destruct (String.eqb text (input s)) eqn:Heq.
  - apply String.eqb_eq in Heq. auto.
  - unfold effect_body, effect_cleanup. cbn [debounceTimerRef set_input].
    destruct (debounceTimerRef s) as [id|] eqn:E; cbn; rewrite ?E; cbn;
      destruct (JS.truthy text); cbn; auto.
Qed.

Lemma setInput_cleared (s : AppState) :
  input s <> EmptyString ->
  translation (setInput EmptyString s) = None
  /\ history (setInput EmptyString s) = history s ++ [HClear].
Proof.
  intros Hne. unfold setInput.
  destruct (String.eqb_spec EmptyString (input s)) as [E|_]; [congruence|].
  unfold effect_body, effect_cleanup. cbn [debounceTimerRef set_input].
  destruct (debounceTimerRef s) as [id|] eqn:E; cbn; rewrite ?E; cbn; auto.
Qed.

Lemma timer_text_inv_reachable (s : AppState) : reachable s -> timer_text_inv s.
Proof.
  apply reachable_induction.
  - intros t [].
  - intros ev s0 Hr Hinv. destruct ev as [text|id remote|req]; cbn [step].
    + destruct (String.eqb text (input s0)) eqn:Heq.
      * unfold setInput. now rewrite Heq.
      * destruct (timers_inv_reachable s0 Hr) as (_ & Href & _).
        destruct (setInput_changed text s0 Href Heq) as (Ht & _).
        destruct (setInput_frame text s0) as (_ & _ & _ & _ & Hi).
        intros t Hin. rewrite Ht in Hin. rewrite Hi.
        destruct (JS.truthy text) eqn:Hy; [|contradiction].
        destruct Hin as [<-|[]]. cbn. auto.
    + unfold fire. destruct (find _ (timers s0)) as [t0|]; [|exact Hinv].
      destruct (timers_performTranslation (timer_text t0) remote
                  (clearTimeout id s0)) as (Ht & _ & _ & Hi).
      intros t Hin. rewrite Ht in Hin. rewrite Hi. cbn in Hin |- *.
      apply filter_In in Hin as [Hin _]. now apply Hinv.
    + destruct (timers_resume req s0) as (Ht & _ & _ & Hi).
      intros t Hin. rewrite Ht in Hin. rewrite Hi. now apply Hinv.
Qed.

Lemma nonblank_not_spec_blank (text : string) :
  JS.truthy (JS.trim text) = true -> spec_blank text = false.
Proof.
  intros H. destruct (spec_blank text) eqn:E; [|reflexivity].
  apply trim_blank in E. rewrite E in H. discriminate.
Qed.

Lemma resume_other_requests (id j : nat) (s : AppState) :
  j <> id -> lookup j (requests (resume id s)) = lookup j (requests s).
Proof.
  intros Hne. destruct (lookup id (requests s)) as [g|] eqn:Hl.
  2:{ unfold resume. now rewrite Hl. }
  destruct g as [[e|r]|st [|c cs] e].
  - rewrite (resume_call s id _ Hl). cbn. now apply lookup_remove_ne.
  - rewrite (resume_call s id _ Hl). cbn. now apply lookup_update_ne.
  - rewrite (resume_end s id st e Hl). cbn. now apply lookup_remove_ne.
  - rewrite (resume_chunk s id st c cs e Hl). cbn. now apply lookup_update_ne.
Qed.

Lemma resume_frame (id : nat) (s : AppState) :
  remote_calls (resume id s) = remote_calls s
  /\ next_request (resume id s) = next_request s
  /\ abortControllerRef (resume id s) = abortControllerRef s
  /\ aborted (resume id s) = aborted s.
Proof.
  destruct (lookup id (requests s)) as [g|] eqn:Hl.
  2:{ unfold resume. now rewrite Hl. }
  destruct g as [[e|r]|st [|c cs] e].
  - now rewrite (resume_call s id _ Hl).
  - now rewrite (resume_call s id _ Hl).
  - now rewrite (resume_end s id st e Hl).
  - rewrite (resume_chunk s id st c cs e Hl).
    now destruct (snd (decode_chunk st c)).
Qed.

Lemma decode_chunk_truthy (st : DecoderState) (c : string) :
  JS.truthy c = true ->
  exists st' r, decode_chunk st (Some c) = (st', Some r).
Proof.
  intros Hc. destruct (JS.truthy (detectedLang st)) eqn:Hd.
  - rewrite decode_chunk_next by assumption. eauto.
  - apply truthy_false in Hd. rewrite decode_chunk_first by assumption. eauto.
Qed.

Lemma nonempty_chunks_idem (cs : list (option string)) :
  nonempty_chunks (map Some (nonempty_chunks cs)) = nonempty_chunks cs.
Proof.
  induction cs as [|[[|a c]|] cs IH]; cbn; now rewrite ?IH.
Qed.

Lemma no_line_feed (c : string) :
  ~ In JS.LF (list_ascii_of_string c) ->
  spec_first_line c = c /\ spec_after_first_newline c = EmptyString.
Proof.
  induction c as [|a c IH]; [auto|].
  cbn [list_ascii_of_string In spec_first_line spec_after_first_newline].
  intros H. destruct (Ascii.eqb_spec a JS.LF) as [->|_].
  - exfalso. apply H. now left.
  - destruct IH as [-> ->]; auto.
Qed.

(** ** Properties of the stream decoder *)

(** X1: chunks whose text is undefined or empty are transparent: the
    generator yields for a stream what it yields for the same stream with
    those chunks taken out. *)
Theorem translateTextStream_skips_empty_chunks
  (text : string) (cs : list (option string)) (e : StreamEnd) :
  yields (translateTextStream text (CallResolves (mkStream cs e)))
  = yields (translateTextStream text
              (CallResolves (mkStream (map Some (nonempty_chunks cs)) e))).
Proof.
  rewrite !translateTextStream_yields.
  destruct (negb (JS.truthy (JS.trim text))); [reflexivity|].
  cbn [chunks]. rewrite !decode_chunks_fresh by reflexivity.
  now rewrite nonempty_chunks_idem.
Qed.


(** X3: when the first non-empty chunk holds no line feed, all of it is
    taken as the language line: the first result has the empty text, and the
    result number [i] has the concatenation of the [i] non-empty chunks that
    follow the first, a line feed at the head of the second chunk
    included. *)
Theorem first_chunk_without_line_feed
  (text : string) (s : RemoteStream) (c : string) (rest : list string) (i : nat) :
  JS.truthy (JS.trim text) = true ->
  nonempty_chunks (chunks s) = c :: rest ->
  ~ In JS.LF (list_ascii_of_string c) ->
  i <= length rest ->
  nth_error (yields (translateTextStream text (CallResolves s))) i
  = Some {| TR.detectedLanguage := spec_language c;
            TR.translation := concat_all (firstn i rest);
            TR.isComplete := None |}.
Proof.
  intros Ht Hne Hlf Hi.
  rewrite (translateTextStream_delivered _ _ Ht). cbn [delivered].
  rewrite decode_chunks_fresh by reflexivity. rewrite Hne.
  destruct (no_line_feed c Hlf) as [-> ->].
  cbn [fst fullText decoder_init String.append].
  rewrite nth_error_map. destruct i as [|i]; [reflexivity|].
  cbn [nth_error]. rewrite running_nth by lia. reflexivity.
Qed.

Lemma first_chunk_without_line_feed_witness :
  nth_error
    (yields (translateTextStream "hello"
               (CallResolves
                  (mkStream [Some "en"; Some (String JS.LF "Bonjour")]
                            EndOfStream)))) 1
  = Some {| TR.detectedLanguage := "en";
            TR.translation := String JS.LF "Bonjour";
            TR.isComplete := None |}.
Proof.
  refine (first_chunk_without_line_feed "hello" _ "en"
            [String JS.LF "Bonjour"] 1 _ _ _ _);
    [reflexivity | reflexivity | | cbn; lia].
  cbn. intros [H|[H|[]]]; discriminate H.
Defined.

(** ** Properties of the request coordinator *)

(** X4: in every state the component can reach, the service has been called
    exactly once per request submitted, in order and with the text of that
    request, and never with a text that is empty or made of white space. *)
Theorem service_called_once_per_request (s : AppState) :
  reachable s ->
  remote_calls s = submitted (history s)
  /\ length (remote_calls s) = next_request s
  /\ Forall (fun t => spec_blank t = false) (remote_calls s).
Proof.
  intros Hr. destruct (calls_inv_reachable s Hr) as (Hc & Hn & Hb & _).
  repeat split; auto.
  eapply Forall_impl; [|exact Hb]. apply nonblank_not_spec_blank.
Qed.

Lemma service_called_once_per_request_witness :
  remote_calls (run race_events app_init)
  = submitted (history (run race_events app_init)).
Proof.
  refine (proj1 (service_called_once_per_request (run race_events app_init) _)).
  exists race_events. reflexivity.
Defined.

(** X5: in every state the component can reach, [abort()] has been called
    exactly once on the controller of every request but the latest, never on
    the controller of the latest, which is the one the ref holds. *)
Theorem abort_called_on_superseded_requests (s : AppState) :
  reachable s ->
  NoDup (aborted s)
  /\ (forall id, In id (aborted s) <-> S id < next_request s)
  /\ abortControllerRef s
     = match next_request s with 0 => None | S n => Some n end.
Proof.
  intros Hr. destruct (calls_inv_reachable s Hr) as (_ & _ & _ & Ha & Hab).
  rewrite Hab. repeat split.
  - apply NoDup_rev, seq_NoDup.
  - rewrite <- in_rev, in_seq. lia.
  - rewrite <- in_rev, in_seq. lia.
  - exact Ha.
Qed.

Lemma abort_called_on_superseded_requests_witness :
  NoDup (aborted (run race_events app_init)).
Proof.
  refine (proj1 (abort_called_on_superseded_requests
                   (run race_events app_init) _)).
  exists race_events. reflexivity.
Defined.

(** X6: whatever the interleaving of the requests in flight, the texts
    published by one request grow by prefix extension, each one extending
    the one that request published before. *)
Theorem published_texts_grow_per_request (s : AppState) (id : nat) :
  reachable s ->
  prefix_growing EmptyString (map TR.translation (published_by id (history s))).
Proof.
  intros Hr. destruct (stream_inv_reachable s Hr) as (_ & _ & Hwp & _).
  exact (proj1 (Hwp id)).
Qed.

Lemma published_texts_grow_per_request_witness :
  prefix_growing EmptyString
    (map TR.translation (published_by 0 (history (run race_events app_init)))).
Proof.
  refine (published_texts_grow_per_request (run race_events app_init) 0 _).
  exists race_events. reflexivity.
Defined.

(** X7: whatever the interleaving, all the results published by one request
    carry the same detected language, which is [zh] or [en], and none
    carries [isComplete]. *)
Theorem published_language_fixed_per_request
  (s : AppState) (id : nat) (r1 r2 : TranslationResult) :
  reachable s ->
  In r1 (published_by id (history s)) ->
  In r2 (published_by id (history s)) ->
  TR.detectedLanguage r1 = TR.detectedLanguage r2
  /\ known_language (TR.detectedLanguage r1)
  /\ TR.isComplete r1 = None.
Proof.
  intros Hr H1 H2. destruct (stream_inv_reachable s Hr) as (_ & _ & Hwp & _).
  destruct (Hwp id) as (_ & Hs & Hk). split; [now apply Hs|].
  rewrite Forall_forall in Hk. now apply Hk.
Qed.

Lemma published_language_fixed_per_request_witness :
  TR.detectedLanguage (en_result "Bon") = TR.detectedLanguage (en_result "Bonjour").
Proof.
  refine (proj1 (published_language_fixed_per_request
                   (run race_events app_init) 0
                   (en_result "Bon") (en_result "Bonjour") _ _ _)).
  - exists race_events. reflexivity.
  - vm_compute. auto.
  - vm_compute. auto.
Defined.

(** X8: in every state the component can reach, the translation shown, when
    there is one, is a result that some request submitted earlier has
    published; its language is [zh] or [en] and it carries no
    [isComplete]. *)
Theorem translation_shown_was_published (s : AppState) (r : TranslationResult) :
  reachable s ->
  translation s = Some r ->
  (exists id, id < next_request s /\ In r (published_by id (history s)))
  /\ known_language (TR.detectedLanguage r)
  /\ TR.isComplete r = None.
Proof.
  intros Hr Ht.
  destruct (stream_inv_reachable s Hr) as (_ & Hnew & Hwp & Htr).
  destruct (Htr r Ht) as [id Hin]. split.
  - exists id. split; [|exact Hin].
    destruct (Nat.lt_ge_cases id (next_request s)) as [|Hge]; [assumption|].
    rewrite (Hnew id Hge) in Hin. contradiction.
  - destruct (Hwp id) as (_ & _ & Hk). rewrite Forall_forall in Hk.
    now apply Hk.
Qed.

Lemma translation_shown_was_published_witness :
  known_language (TR.detectedLanguage (en_result "Bonjour")).
Proof.
  refine (proj1 (proj2 (translation_shown_was_published
                          (run race_events app_init) (en_result "Bonjour") _ _))).
  - exists race_events. reflexivity.
  - reflexivity.
Defined.

(** X9: in every state the component can reach, a pending debounce timer
    is for the current input, which is not empty, with the delay of that
    input: when it fires, [performTranslation] is called with the input as
    it is then. *)
Theorem pending_timer_is_current_input
  (s : AppState) (t : Timer) (remote : RemoteCall) :
  reachable s ->
  In t (timers s) ->
  timer_text t = input s
  /\ timer_delay t = debounce_delay (input s)
  /\ input s <> EmptyString
  /\ fire (timer_id t) remote s
     = performTranslation (input s) remote (clearTimeout (timer_id t) s).
Proof.
  intros Hr Hin.
  destruct (timer_text_inv_reachable s Hr t Hin) as (Ht & Hd & Hy).
  repeat split; auto.
  - intros E. rewrite E in Hy. discriminate.
  - destruct (timers_inv_reachable s Hr) as (Hlen & _).
    destruct (timers s) as [|t0 [|t1 ts]] eqn:E; cbn in Hlen; try lia.
    + contradiction.
    + destruct Hin as [<-|[]]. unfold fire. rewrite E. cbn [find].
      now rewrite Pos.eqb_refl, Ht.
Qed.

Lemma pending_timer_is_current_input_witness :
  timer_text (mkTimer 1 400 "hello") = input (setInput "hello" app_init).
Proof.
  refine (proj1 (pending_timer_is_current_input (setInput "hello" app_init)
                   (mkTimer 1 400 "hello") (CallRejects "offline") _ _)).
  - exists [EvSetInput "hello"]. reflexivity.
  - left. reflexivity.
Defined.

(** X10: changes of the input never call the service; after any burst of
    changes, whichever timer fires next, at most one call is made, and it is
    made with the input as it stands after the burst. *)
Theorem input_burst_one_call
  (s : AppState) (texts : list string) (id : positive) (remote : RemoteCall) :
  reachable s ->
  let s' := run (map EvSetInput texts) s in
  remote_calls s' = remote_calls s
  /\ requests s' = requests s
  /\ input s' = last texts (input s)
  /\ (remote_calls (fire id remote s') = remote_calls s'
      \/ remote_calls (fire id remote s') = remote_calls s' ++ [input s']).
Proof.
  intros Hr. cbn zeta.
  assert (Hburst : forall ts s0,
            remote_calls (run (map EvSetInput ts) s0) = remote_calls s0
            /\ requests (run (map EvSetInput ts) s0) = requests s0
            /\ input (run (map EvSetInput ts) s0) = last ts (input s0)).
  { induction ts as [|t ts IH]; intros s0; [cbn; auto|].
    cbn [map]. rewrite run_cons. cbn [step].
    destruct (IH (setInput t s0)) as (H1 & H2 & H3).
    destruct (setInput_frame t s0) as (F1 & F2 & _ & _ & F5).
    rewrite H1, H2, H3, F1, F2, F5. rewrite last_cons_default. auto. }
  destruct (Hburst texts s) as (H1 & H2 & H3).
  repeat split; auto.
  set (s' := run (map EvSetInput texts) s) in *.
  assert (Hr' : reachable s') by now apply reachable_run.
  unfold fire. destruct (find _ (timers s')) as [t|] eqn:Hf; [|now left].
  apply find_some in Hf as [Hin _].
  destruct (timer_text_inv_reachable s' Hr' t Hin) as (Ht & _).
  rewrite Ht.
  destruct (JS.truthy (JS.trim (input s'))) eqn:Hb.
  - right.
    now destruct (performTranslation_request (input s') remote
                    (clearTimeout id s') Hb) as (_ & _ & _ & _ & ->).
  - left. now rewrite performTranslation_blank.
Qed.

Lemma input_burst_one_call_witness :
  remote_calls (run (map EvSetInput ["a"; "ab"]) app_init) = remote_calls app_init.
Proof.
  refine (proj1 (input_burst_one_call app_init ["a"; "ab"] 2%positive
                   (CallRejects "offline") _)).
  exists []. reflexivity.
Defined.

(** X11: resuming the loop of one request leaves the other requests in
    flight as they are, calls the service no more, and touches neither the
    debounce timer nor the input nor the abort controllers. *)
Theorem resume_leaves_other_requests (id j : nat) (s : AppState) :
  j <> id ->
  lookup j (requests (resume id s)) = lookup j (requests s)
  /\ remote_calls (resume id s) = remote_calls s
  /\ timers (resume id s) = timers s
  /\ debounceTimerRef (resume id s) = debounceTimerRef s
  /\ input (resume id s) = input s
  /\ abortControllerRef (resume id s) = abortControllerRef s
  /\ aborted (resume id s) = aborted s.
Proof.
  intros Hne.
  destruct (resume_frame id s) as (F1 & _ & F3 & F4).
  destruct (timers_resume id s) as (T1 & T2 & _ & T4).
  repeat split; auto. now apply resume_other_requests.
Qed.

Lemma resume_leaves_other_requests_witness :
  lookup 1 (requests (resume 0 (run race_events app_init)))
  = lookup 1 (requests (run race_events app_init)).
Proof.
  refine (proj1 (resume_leaves_other_requests 0 1 (run race_events app_init) _)).
  discriminate.
Defined.

(** X12: when the loop of a request ends, [isTranslating] is set to false
    even though another request is still in flight, and that one stays in
    flight. *)
Theorem finished_request_resets_isTranslating
  (id j : nat) (s : AppState) (g gj : GenPhase) :
  lookup id (requests s) = Some g ->
  fst (gen_resume g) = GReturn ->
  j <> id ->
  lookup j (requests s) = Some gj ->
  isTranslating (resume id s) = false
  /\ lookup id (requests (resume id s)) = None
  /\ lookup j (requests (resume id s)) = Some gj.
Proof.
  intros Hl Hg Hne Hj. rewrite (resume_other_requests id j s Hne).
  split; [|split; [|exact Hj]].
  - unfold resume. rewrite Hl.
    destruct (gen_resume g) as [sig logs]. cbn [fst] in Hg. now subst sig.
  - unfold resume. rewrite Hl.
    destruct (gen_resume g) as [sig logs]. cbn [fst] in Hg. subst sig.
    cbn. apply lookup_remove_eq.
Qed.

Lemma finished_request_resets_isTranslating_witness :
  isTranslating (resume 0 (run race_events app_init)) = false
  /\ lookup 1 (requests (resume 0 (run race_events app_init)))
     = Some (AwaitingChunk (mkDecoder "en" "Bonjour le monde") [] EndOfStream).
Proof.
  destruct (finished_request_resets_isTranslating 0 1
              (run race_events app_init)
              (AwaitingChunk (mkDecoder "en" "Bonjour") [] EndOfStream)
              (AwaitingChunk (mkDecoder "en" "Bonjour le monde") [] EndOfStream)
              eq_refl eq_refl (fun H => Nat.neq_succ_0 0 H) eq_refl)
    as (H1 & _ & H3).
  exact (conj H1 H3).
Defined.

(** X13: emptying the input clears the published translation and the
    pending timer but does not stop a request in flight: its next non-empty
    chunk is published over the cleared state. *)
Theorem cleared_input_republished
  (s : AppState) (id : nat) (st : DecoderState) (c : string)
  (cs : list (option string)) (e : StreamEnd) :
  reachable s ->
  input s <> EmptyString ->
  lookup id (requests s) = Some (AwaitingChunk st (Some c :: cs) e) ->
  JS.truthy c = true ->
  let s1 := setInput EmptyString s in
  translation s1 = None
  /\ timers s1 = []
  /\ exists r, snd (decode_chunk st (Some c)) = Some r
               /\ translation (resume id s1) = Some r
               /\ history (resume id s1)
                  = history s ++ [HClear; HPublish id r].
Proof.
  intros Hr Hne Hl Hc. cbn zeta.
  destruct (setInput_cleared s Hne) as (Ht & Hh).
  destruct (timers_inv_reachable s Hr) as (_ & Href & _).
  assert (Heq : String.eqb EmptyString (input s) = false).
  { destruct (String.eqb_spec EmptyString (input s)); congruence. }
  destruct (setInput_changed EmptyString s Href Heq) as (Htm & _).
  destruct (setInput_frame EmptyString s) as (_ & Hrq & _).
  repeat split; auto.
  destruct (decode_chunk_truthy st c Hc) as (st' & r & Hd).
  exists r. rewrite Hd. split; [reflexivity|].
  rewrite <- Hrq in Hl.
  rewrite (resume_chunk _ id st (Some c) cs e Hl), Hd. cbn.
  rewrite Hh, <- app_assoc. auto.
Qed.

Lemma cleared_input_republished_witness :
  translation
    (setInput EmptyString
       (run [EvSetInput "hello"; EvTimer 1%positive (CallResolves old_stream);
             EvResume 0] app_init))
  = None.
Proof.
  refine (proj1 (cleared_input_republished
                   (run [EvSetInput "hello";
                         EvTimer 1%positive (CallResolves old_stream);
                         EvResume 0] app_init)
                   0 decoder_init ("en" ^^ String JS.LF EmptyString ^^ "Bon")
                   [Some "jour"] EndOfStream _ _ _ _)).
  - eexists. reflexivity.
  - discriminate.
  - reflexivity.
  - reflexivity.
Defined.

(** ** Properties of the speech output *)

(** X14: for the source side, or for a text of 500 code units or more,
    [speak] never calls the remote synthesis and leaves the audio element
    alone: it sets the flag of its side, leaves the other flag as it is, and
    hands one utterance to the local synthesis, tagged [zh-CN] for the
    language [zh] and [en-US] otherwise. *)
Theorem speak_local_only
  (text lang : string) (isSource : bool) (tts : TtsResponse) (s : SpeechState) :
  JS.truthy text = true ->
  isSource = true \/ 500 <= String.length text ->
  let s' := speak text lang isSource tts s in
  tts_calls s' = tts_calls s
  /\ audioRef s' = audioRef s
  /\ utterances s'
     = utterances s
       ++ [mkUtterance text (if String.eqb lang "zh" then "zh-CN" else "en-US")
                       (side_of isSource)]
  /\ isSpeakingSource s' = (if isSource then true else isSpeakingSource s)
  /\ isSpeakingTranslation s'
     = (if isSource then isSpeakingTranslation s else true).
Proof.
  intros Ht Hloc. cbn zeta. unfold speak. rewrite Ht. cbn [negb].
  assert (Hc : negb isSource && (String.length text <? 500) = false).
  { destruct Hloc as [-> | Hlen]; [reflexivity|].
    destruct (Nat.ltb_spec (String.length text) 500); [lia|].
    now rewrite andb_false_r. }
  rewrite Hc. now destruct isSource.
Qed.

Lemma speak_local_only_witness :
  tts_calls (speak "hello" "en" true (TtsRejects "offline")
               (mkSpeech false false None [] [] []))
  = [].
Proof.
  refine (proj1 (speak_local_only "hello" "en" true (TtsRejects "offline")
                   (mkSpeech false false None [] [] []) _ _));
    [reflexivity | left; reflexivity].
Defined.

(** X15: for the translation side and a non-empty text of fewer than 500
    code units, [speak] calls the remote synthesis exactly once, whatever
    the answer, with the voice [Puck] for the language [en] and [Kore]
    otherwise, and never touches the flag of the source side. *)
Theorem speak_remote_call
  (text lang : string) (tts : TtsResponse) (s : SpeechState) :
  JS.truthy text = true ->
  String.length text < 500 ->
  let s' := speak text lang false tts s in
  tts_calls s'
  = tts_calls s ++ [(text, if String.eqb lang "en" then "Puck" else "Kore")]
  /\ isSpeakingSource s' = isSpeakingSource s.
Proof.
  intros Ht Hlen. cbn zeta. unfold speak. rewrite Ht. cbn [negb andb].
  destruct (Nat.ltb_spec (String.length text) 500); [|lia].
  destruct tts as [e|[data|]]; cbn; auto.
  destruct data as [|a data]; cbn; auto.
  destruct (audioRef s); cbn; auto.
Qed.

Lemma speak_remote_call_witness :
  tts_calls (speak "hello" "en" false (TtsResolves None)
               (mkSpeech false false None [] [] []))
  = [("hello", "Puck")].
Proof.
  refine (proj1 (speak_remote_call "hello" "en" (TtsResolves None)
                   (mkSpeech false false None [] [] []) _ _));
    [reflexivity | cbn; lia].
Defined.

(** X16: when the remote synthesis rejects, [speak] does not fall back to
    the local synthesis: no utterance is started, the audio element is left
    alone, the flag of the translation side is reset and the error is
    written to the console. *)
Theorem speak_rejected_no_fallback
  (text lang e : string) (s : SpeechState) :
  JS.truthy text = true ->
  String.length text < 500 ->
  let s' := speak text lang false (TtsRejects e) s in
  utterances s' = utterances s
  /\ audioRef s' = audioRef s
  /\ isSpeakingTranslation s' = false
  /\ isSpeakingSource s' = isSpeakingSource s
  /\ speech_console s' = speech_console s ++ ["Speech error: " ^^ e].
Proof.
  intros Ht Hlen. cbn zeta. unfold speak. rewrite Ht. cbn [negb andb].
  destruct (Nat.ltb_spec (String.length text) 500); [|lia].
  cbn. auto.
Qed.

Lemma speak_rejected_no_fallback_witness :
  utterances (speak "hello" "en" false (TtsRejects "offline")
                (mkSpeech false true None [] [] []))
  = [].
Proof.
  refine (proj1 (speak_rejected_no_fallback "hello" "en" "offline"
                   (mkSpeech false true None [] [] []) _ _));
    [reflexivity | cbn; lia].
Defined.



(** X18: [speakTranslation] does nothing when no translation is shown or
    its text is empty; otherwise it has the text of the translation read in
    the other language: for a text shorter than 500 code units the remote
    synthesis is asked for the voice [Puck] when the detected language is
    [zh] and for [Kore] otherwise. *)
Theorem speakTranslation_other_language
  (tts : TtsResponse) (a : AppState) (s : SpeechState) :
  match translation a with
  | None => speakTranslation tts a s = s
  | Some r =>
      if JS.truthy (TR.translation r) then
        speakTranslation tts a s
        = speak (TR.translation r)
                (if String.eqb (TR.detectedLanguage r) "zh" then "en" else "zh")
                false tts s
        /\ (String.length (TR.translation r) < 500 ->
            tts_calls (speakTranslation tts a s)
            = tts_calls s
              ++ [(TR.translation r,
                   if String.eqb (TR.detectedLanguage r) "zh"
                   then "Puck" else "Kore")])
      else speakTranslation tts a s = s
  end.
Proof.
  unfold speakTranslation. destruct (translation a) as [r|]; [|reflexivity].
  destruct (JS.truthy (TR.translation r)) eqn:Ht; [|reflexivity].
  split; [reflexivity|]. intros Hlen.
  destruct (speak_remote_call (TR.translation r)
              (if String.eqb (TR.detectedLanguage r) "zh" then "en" else "zh")
              tts s Ht Hlen) as [-> _].
  now destruct (String.eqb (TR.detectedLanguage r) "zh").
Qed.

(** X19: [speakSource] never calls the remote synthesis.  With an empty
    input it does nothing; otherwise it hands the input to the local
    synthesis, tagged [en-US] when a translation is shown whose detected
    language is [en] and [zh-CN] in every other case. *)
Theorem speakSource_local
  (tts : TtsResponse) (a : AppState) (s : SpeechState) :
  tts_calls (speakSource tts a s) = tts_calls s
  /\ (input a = EmptyString -> speakSource tts a s = s)
  /\ (input a <> EmptyString ->
      utterances (speakSource tts a s)
      = utterances s
        ++ [mkUtterance (input a)
              (match translation a with
               | Some r => if String.eqb (TR.detectedLanguage r) "en"
                           then "en-US" else "zh-CN"
               | None => "zh-CN"
               end) SourceSide]
      /\ isSpeakingSource (speakSource tts a s) = true
      /\ isSpeakingTranslation (speakSource tts a s) = isSpeakingTranslation s).
Proof.
  unfold speakSource.
  destruct (JS.truthy (input a)) eqn:Ht.
  - set (lang := match translation a with
                 | Some r => if String.eqb (TR.detectedLanguage r) "en"
                             then "en" else "zh"
                 | None => "zh"
                 end).
    destruct (speak_local_only (input a) lang true tts s Ht (or_introl eq_refl))
      as (H1 & _ & H3 & H4 & H5).
    cbn zeta in *. split; [exact H1|]. split.
    + intros E. rewrite E in Ht. discriminate.
    + intros _. rewrite H3, H4, H5. repeat split. do 3 f_equal.
      subst lang. destruct (translation a) as [r|]; [|reflexivity].
      now destruct (String.eqb (TR.detectedLanguage r) "en").
  - apply truthy_false in Ht. rewrite Ht. cbn.
    split; [reflexivity|]. split; [reflexivity|].
    intros Hne. now contradiction Hne.
Qed.

Lemma speakTranslation_other_language_witness :
  tts_calls (speakTranslation (TtsResolves None) (run bonjour_events app_init)
               (mkSpeech false false None [] [] []))
  = [("Bonjour", "Kore")].
Proof.
  refine (proj2 (speakTranslation_other_language (TtsResolves None)
                   (run bonjour_events app_init)
                   (mkSpeech false false None [] [] []) : _ /\ _) _).
  cbn. lia.
Defined.

Lemma speakSource_local_witness :
  isSpeakingSource
    (speakSource (TtsResolves None) (run bonjour_events app_init)
       (mkSpeech false false None [] [] []))
  = true.
Proof.
  refine (proj1 (proj2 (proj2 (proj2
            (speakSource_local (TtsResolves None) (run bonjour_events app_init)
               (mkSpeech false false None [] [] []))) _))).
  discriminate.
Defined.

(** ** Properties of the speech recognition *)

Lemma onresult_loop_transcripts (rs : list RecognitionResult) :
  forall interimTranscript finalTranscript,
  onresult_loop rs interimTranscript finalTranscript
  = (interimTranscript ^^ transcripts false rs,
     finalTranscript ^^ transcripts true rs).
Proof.
  unfold transcripts.
  induction rs as [|r rs IH]; intros i f.
  - cbn. now rewrite !append_empty_r.
  - cbn [onresult_loop filter]. destruct (isFinal r); cbn [Bool.eqb map concat_all];
      rewrite IH, append_assoc; reflexivity.
Qed.

(** X20: the text taken from a recognition event ignores the results
    before [resultIndex]; it is the concatenation of the final transcripts
    that follow when that is not empty, the interim ones being dropped, and
    the concatenation of the interim transcripts otherwise. *)
Theorem currentText_prefers_final (event : RecognitionEvent) :
  let rs := skipn (resultIndex event) (results event) in
  currentText event
  = if JS.truthy (transcripts true rs)
    then transcripts true rs else transcripts false rs.
Proof.
  cbn zeta. unfold currentText. now rewrite onresult_loop_transcripts.
Qed.

Lemma transcripts_empty (final : bool) (rs : list RecognitionResult) :
  Forall (fun r => transcript r = EmptyString) rs ->
  transcripts final rs = EmptyString.
Proof.
  unfold transcripts. induction 1 as [|r rs Hr _ IH]; [reflexivity|].
  cbn [filter]. destruct (Bool.eqb (isFinal r) final); [|exact IH].
  cbn. now rewrite Hr.
Qed.

(** X21: a recognition event none of whose results from [resultIndex] on
    has a non-empty transcript, and so an event whose [resultIndex] is past
    the last result, changes nothing: the input, the pending timer and the
    translation stay as they are. *)
Theorem onresult_without_text (event : RecognitionEvent) (s : AppState) :
  Forall (fun r => transcript r = EmptyString)
         (skipn (resultIndex event) (results event)) ->
  onresult event s = s.
Proof.
  intros H. unfold onresult. rewrite currentText_prefers_final. cbn zeta.
  now rewrite !(transcripts_empty _ _ H).
Qed.

Lemma onresult_without_text_witness :
  onresult (mkRecEvent 1 [mkRecResult true "hello"]) app_init = app_init.
Proof.
  refine (onresult_without_text (mkRecEvent 1 [mkRecResult true "hello"])
            app_init _).
  constructor.
Defined.

(** X22: a recognition event whose text is not empty and differs from the
    input replaces the whole input by that text, never appending to it,
    calls the service no more, and leaves exactly one pending debounce timer,
    for that text. *)
Theorem onresult_replaces_input (event : RecognitionEvent) (s : AppState) :
  reachable s ->
  JS.truthy (currentText event) = true ->
  currentText event <> input s ->
  let s' := onresult event s in
  input s' = currentText event
  /\ timers s'
     = [mkTimer (next_timer s) (debounce_delay (currentText event))
                (currentText event)]
  /\ remote_calls s' = remote_calls s
  /\ requests s' = requests s.
Proof.
  intros Hr Ht Hne. cbn zeta. unfold onresult. rewrite Ht.
  destruct (timers_inv_reachable s Hr) as (_ & Href & _).
  apply String.eqb_neq in Hne.
  destruct (setInput_changed _ s Href Hne) as (Htm & _).
  destruct (setInput_frame (currentText event) s) as (F1 & F2 & _ & _ & F5).
  rewrite Ht in Htm. auto.
Qed.

Lemma onresult_replaces_input_witness :
  input (onresult (mkRecEvent 0 [mkRecResult false "hel"; mkRecResult true "hello"])
           (setInput "hi" app_init))
  = "hello".
Proof.
  refine (proj1 (onresult_replaces_input
                   (mkRecEvent 0 [mkRecResult false "hel"; mkRecResult true "hello"])
                   (setInput "hi" app_init) _ _ _)).
  - exists [EvSetInput "hi"]. reflexivity.
  - reflexivity.
  - discriminate.
Defined.

Lemma record_call_last (older : list Recognition) (r : Recognition) (c : RecCall) :
  record_call (length older) c (older ++ [r])
  = older ++ [mkRecognition (rec_isRecording r) (rec_calls r ++ [c])].
Proof. induction older as [|o older IH]; cbn; now rewrite ?IH. Qed.

Lemma recording_inv_effect (b : bool) (s : RecordingState) :
  (if speechSupported s then True
   else recognitions s = [] /\ recognitionRef s = None) ->
  Forall (fun r =>
            rec_calls r = []
            \/ (rec_isRecording r = false /\ exists t, rec_calls r = [RStart t])
            \/ (rec_isRecording r = true /\ rec_calls r = [RStop]))
         (recognitions s) ->
  recording_inv
    (recognition_effect
       (mkRecording b (recognitionRef s) (recognitions s)
                    (speechSupported s) (rec_console s))).
Proof.
  intros Hsup Hall. unfold recognition_effect, recording_inv. cbn.
  destruct (speechSupported s) eqn:E; cbn; rewrite ?E.
  - split; [now exists (recognitions s)|].
    apply Forall_app. split; [exact Hall|]. constructor; [now left | constructor].
  - split; [exact Hsup | exact Hall].
Qed.

Lemma recording_inv_setIsRecording (v : bool) (s : RecordingState) :
  recording_inv s -> recording_inv (setIsRecording v s).
Proof.
  intros Hinv. unfold setIsRecording.
  destruct (Bool.eqb v (isRecording s)); [exact Hinv|].
  destruct Hinv as [Hsup Hall]. apply recording_inv_effect; [|exact Hall].
  now destruct (speechSupported s).
Qed.

Lemma recording_inv_console (line : string) (s : RecordingState) :
  recording_inv s -> recording_inv (rec_console_error line s).
Proof. intros H. exact H. Qed.

Lemma recording_inv_toggle (throws : bool) (s : RecordingState) :
  recording_inv s -> recording_inv (toggleRecording throws s).
Proof.
  intros [Hsup Hall]. unfold toggleRecording.
  destruct (speechSupported s) eqn:E.
  - destruct Hsup as (older & Hrec & Href). rewrite Href.
    rewrite Hrec in Hall. apply Forall_app in Hall as [Hold _].
    destruct (isRecording s) eqn:Hi.
    + unfold setIsRecording, call_on. cbn. rewrite Hi, Hrec, record_call_last.
      cbn. rewrite E; cbn.
      apply (recording_inv_effect false
               (mkRecording true (Some (length older))
                  (older ++ [mkRecognition true [RStop]]) true (rec_console s))).
      * exact I.
      * apply Forall_app. split; [exact Hold|].
        constructor; [|constructor]. right. right. auto.
    + assert (H : forall k,
                recording_inv
                  (setIsRecording true
                     (mkRecording (isRecording s) (recognitionRef s)
                        (record_call (length older) (RStart throws)
                           (recognitions s))
                        (speechSupported s) k))).
      { intros k. unfold setIsRecording. cbn.
        rewrite Hi, Hrec, record_call_last. cbn. rewrite E; cbn.
        apply (recording_inv_effect true
                 (mkRecording false (Some (length older))
                    (older ++ [mkRecognition false [RStart throws]]) true k)).
        * exact I.
        * apply Forall_app. split; [exact Hold|].
          constructor; [|constructor]. right. left.
          split; [reflexivity | now exists throws]. }
      destruct throws; exact (H _).
  - destruct Hsup as [Hrec Href]. rewrite Href.
    destruct (isRecording s); apply recording_inv_setIsRecording;
      split; rewrite ?E; auto.
Qed.

Lemma recording_started_closed_over_false (id : nat) (s : RecordingState) :
  recording_inv s -> started id s = true ->
  exists r, nth_error (recognitions s) id = Some r
            /\ rec_isRecording r = false
            /\ exists t, rec_calls r = [RStart t].
Proof.
  intros [_ Hall] Hs. unfold started in Hs.
  destruct (nth_error (recognitions s) id) as [r|] eqn:E; [|discriminate].
  exists r. split; [reflexivity|].
  rewrite Forall_forall in Hall.
  destruct (Hall r (nth_error_In _ _ E)) as [H | [H | [_ H]]].
  - rewrite H in Hs. discriminate.
  - exact H.
  - rewrite H in Hs. discriminate.
Qed.

Lemma recording_inv_step (ev : RecordingEvent) (s : RecordingState) :
  recording_inv s -> recording_inv (recording_step ev s).
Proof.
  intros Hinv. destruct ev as [throws|id throws|id error]; cbn [recording_step].
  - now apply recording_inv_toggle.
  - destruct (started id s) eqn:Hs; [|exact Hinv].
    destruct (recording_started_closed_over_false id s Hinv Hs)
      as (r & Hn & Hf & _).
    unfold onend. now rewrite Hn, Hf.
  - destruct (started id s); [|exact Hinv].
    unfold onerror. destruct (String.eqb error "no-speech").
    + exact Hinv.
    + apply recording_inv_setIsRecording. exact Hinv.
Qed.

Lemma recording_inv_reachable (s : RecordingState) :
  recording_reachable s -> recording_inv s.
Proof.
  intros (supported & evs & ->).
  induction evs as [|ev evs IH] using rev_ind.
  - destruct supported; cbn; unfold recording_inv; cbn.
    + split; [now exists [] | constructor; [now left | constructor]].
    + split; [auto | constructor].
  - unfold recording_run in *. rewrite fold_left_app. cbn [fold_left].
    now apply recording_inv_step.
Qed.

(** X23: in every state the component can reach on a platform with speech
    recognition, [recognitionRef] points to the newest recognition object;
    that object has received neither [start()] nor [stop()] and its handlers
    closed over the current [isRecording].  Without speech recognition there
    is no object and the ref is null. *)
Theorem recognitionRef_points_to_fresh_object (s : RecordingState) :
  recording_reachable s ->
  if speechSupported s
  then exists id,
         recognitionRef s = Some id
         /\ S id = length (recognitions s)
         /\ nth_error (recognitions s) id
            = Some (mkRecognition (isRecording s) [])
  else recognitionRef s = None /\ recognitions s = [].
Proof.
  intros Hr. destruct (recording_inv_reachable s Hr) as [Hsup _].
  destruct (speechSupported s).
  - destruct Hsup as (older & Hrec & Href). exists (length older).
    rewrite Hrec, Href, length_app, nth_error_app2, Nat.sub_diag by lia.
    cbn. repeat split. lia.
  - tauto.
Qed.

Lemma recognitionRef_points_to_fresh_object_witness :
  exists id,
    recognitionRef (toggleRecording false (recording_init true)) = Some id
    /\ S id = length (recognitions (toggleRecording false (recording_init true)))
    /\ nth_error (recognitions (toggleRecording false (recording_init true))) id
       = Some (mkRecognition true []).
Proof.
  refine (recognitionRef_points_to_fresh_object
            (toggleRecording false (recording_init true)) _).
  exists true, [EvToggle false]. reflexivity.
Defined.

(** X24: the restart of [onend] never happens: in every state the component
    can reach, the handlers of a recognition object that has been started
    closed over [isRecording = false], so that [onend] on it calls
    [start()] on nothing and changes nothing. *)
Theorem onend_never_restarts (s : RecordingState) (id : nat) (throws : bool) :
  recording_reachable s ->
  started id s = true ->
  onend id throws s = s.
Proof.
  intros Hr Hs.
  destruct (recording_started_closed_over_false id s
              (recording_inv_reachable s Hr) Hs) as (r & Hn & Hf & _).
  unfold onend. now rewrite Hn, Hf.
Qed.

Lemma onend_never_restarts_witness :
  onend 0 false (toggleRecording false (recording_init true))
  = toggleRecording false (recording_init true).
Proof.
  refine (onend_never_restarts (toggleRecording false (recording_init true))
            0 false _ _).
  - exists true, [EvToggle false]. reflexivity.
  - reflexivity.
Defined.

(** X25: in every state the component can reach, a recognition object has
    received at most one call, and an object that received [stop()] was
    never started: [toggleRecording] stops the object made after the one it
    started. *)
Theorem stop_never_reaches_started_object
  (s : RecordingState) (id : nat) (r : Recognition) :
  recording_reachable s ->
  nth_error (recognitions s) id = Some r ->
  length (rec_calls r) <= 1
  /\ (In RStop (rec_calls r) -> started id s = false).
Proof.
  intros Hr Hn. destruct (recording_inv_reachable s Hr) as [_ Hall].
  rewrite Forall_forall in Hall. unfold started. rewrite Hn.
  destruct (Hall r (nth_error_In _ _ Hn)) as [H | [[_ [t H]] | [_ H]]];
    rewrite H; cbn; split; auto.
  intros [E|[]]. discriminate E.
Qed.

Lemma stop_never_reaches_started_object_witness :
  started 1 (recording_run [EvToggle false; EvToggle false] (recording_init true))
  = false.
Proof.
  refine (proj2 (stop_never_reaches_started_object
                   (recording_run [EvToggle false; EvToggle false]
                      (recording_init true))
                   1 (mkRecognition true [RStop]) _ _) _).
  - exists true, [EvToggle false; EvToggle false]. reflexivity.
  - reflexivity.
  - left. reflexivity.
Defined.

(** ** Properties of the clipboard *)

Lemma clipboard_inv_reachable (c : ClipboardState) :
  clipboard_reachable c ->
  (copied c = true -> copy_timers c <> [])
  /\ Forall (fun d => d = 2000) (copy_timers c)
  /\ Forall (fun t => t <> EmptyString) (clipboard c)
  /\ length (copy_timers c) <= length (clipboard c).
Proof.
  intros [evs ->]. induction evs as [|ev evs IH] using rev_ind.
  - cbn. repeat split; auto. discriminate.
  - rewrite fold_left_app. cbn [fold_left].
    destruct IH as (H1 & H2 & H3 & H4).
    set (c := fold_left _ evs clipboard_init) in *.
    destruct ev as [a|]; cbn [clipboard_step].
    + unfold copyToClipboard. destruct (translation a) as [r|]; [|auto].
      destruct (JS.truthy (TR.translation r)) eqn:Ht; [|auto]. cbn.
      repeat split.
      * intros _. now destruct (copy_timers c).
      * apply Forall_app. split; [exact H2 | now repeat constructor].
      * apply Forall_app. split; [exact H3|].
        constructor; [|constructor]. intros E. rewrite E in Ht. discriminate.
      * rewrite !length_app. cbn. lia.
    + unfold copied_timeout. destruct (copy_timers c) as [|d ds] eqn:E.
      * rewrite E. auto.
      * cbn. inversion H2; subst. cbn in H4.
        repeat split; auto; try discriminate. lia.
Qed.

(** X26: in every state the clipboard part of the component can reach,
    the acknowledgement [copied] is shown only while a reset is pending, and
    every pending reset was scheduled for 2000 ms: the acknowledgement
    never sticks. *)
Theorem copied_has_pending_reset (c : ClipboardState) :
  clipboard_reachable c ->
  (copied c = true -> copy_timers c <> [] /\ copied (copied_timeout c) = false)
  /\ Forall (fun d => d = 2000) (copy_timers c).
Proof.
  intros Hr. destruct (clipboard_inv_reachable c Hr) as (H1 & H2 & _).
  split; [|exact H2]. intros Hc. split; [now apply H1|].
  unfold copied_timeout. specialize (H1 Hc).
  now destruct (copy_timers c).
Qed.

Lemma copied_has_pending_reset_witness :
  copy_timers (copyToClipboard (run bonjour_events app_init) clipboard_init) <> [].
Proof.
  refine (proj1 (proj1 (copied_has_pending_reset
                          (copyToClipboard (run bonjour_events app_init)
                             clipboard_init) _) _)).
  - exists [EvCopy (run bonjour_events app_init)]. reflexivity.
  - reflexivity.
Defined.

(** X27: the component never writes the empty text to the clipboard, and
    schedules one reset of [copied] per text written: with no translation
    shown, or a translation whose text is empty, [copyToClipboard] does
    nothing at all. *)
Theorem clipboard_texts_nonempty (c : ClipboardState) (a : AppState) :
  clipboard_reachable c ->
  Forall (fun t => t <> EmptyString) (clipboard c)
  /\ length (copy_timers c) <= length (clipboard c)
  /\ (option_map TR.translation (translation a) = None
      \/ option_map TR.translation (translation a) = Some EmptyString ->
      copyToClipboard a c = c).
Proof.
  intros Hr. destruct (clipboard_inv_reachable c Hr) as (_ & _ & H3 & H4).
  repeat split; auto.
  unfold copyToClipboard. destruct (translation a) as [r|]; [|reflexivity].
  cbn. intros [H|H]; [discriminate|]. injection H as ->. reflexivity.
Qed.

Lemma clipboard_texts_nonempty_witness :
  Forall (fun t => t <> EmptyString)
         (clipboard (copyToClipboard (run bonjour_events app_init) clipboard_init)).
Proof.
  refine (proj1 (clipboard_texts_nonempty
                   (copyToClipboard (run bonjour_events app_init) clipboard_init)
                   app_init _)).
  exists [EvCopy (run bonjour_events app_init)]. reflexivity.
Defined.
